(** * synfig: PixelFormat descriptors, the color codec and
      ValueNode_SegCalcVertex links

    A shallow embedding of
    - [synfig-core/src/synfig/color/pixelformat.h]
      ([PixelFormat], [FLAGS], [channels], [Color2PixelFormat],
      [convert_color_format], [PixelFormat2Color]);
    - [synfig-core/trunk/src/synfig/valuenode_segcalcvertex.cpp]
      ([set_link_vfunc], [get_link_vfunc], [link_count], [link_name],
      [get_link_index_from_name]).

    [ColorReal] is the C++ [float]: values are IEEE-754 binary32 numbers,
    computed with the Standard Library's [SpecFloat] operations at
    precision 24 and maximal exponent 128, and a [Color] keeps the four
    32-bit patterns the object holds in memory.  Pixel buffers are byte
    addressed memories read and written through a cursor. *)

From Stdlib Require Import ZArith QArith Qabs Qround Qpower Bool List String.
From Stdlib Require Import Lia Lqa.
From Stdlib Require Import Floats.SpecFloat.
Import ListNotations.
Local Open Scope Z_scope.

(* ================================================================== *)
(** ** Single-precision floats *)

Module F32.

Definition prec : Z := 24.
Definition emax : Z := 128.

(** The value denoted by a 32-bit pattern (sign, 8-bit biased exponent,
    23-bit fraction). *)
Definition of_bits (w : Z) : spec_float :=
  let s := Z.testbit w 31 in
  let e := Z.land (Z.shiftr w 23) 255 in
  let f := Z.land w (Z.ones 23) in
  if e =? 0 then
    match f with
    | Zpos p => S754_finite s p (-149)
    | _ => S754_zero s
    end
  else if e =? 255 then
    if f =? 0 then S754_infinity s else S754_nan
  else
    match f + 2 ^ 23 with
    | Zpos p => S754_finite s p (e - 150)
    | _ => S754_nan
    end.

(** The pattern stored for a value; a NaN is stored as the quiet NaN
    with an empty payload. *)
Definition to_bits (x : spec_float) : Z :=
  let sign (s : bool) := if s then 2 ^ 31 else 0 in
  match x with
  | S754_zero s => sign s
  | S754_infinity s => sign s + 255 * 2 ^ 23
  | S754_nan => 255 * 2 ^ 23 + 2 ^ 22
  | S754_finite s m e =>
      if Zpos m <? 2 ^ 23 then sign s + Zpos m
      else sign s + (e + 150) * 2 ^ 23 + (Zpos m - 2 ^ 23)
  end.

Definition mul : spec_float -> spec_float -> spec_float := SFmul prec emax.
Definition sub : spec_float -> spec_float -> spec_float := SFsub prec emax.
Definition div : spec_float -> spec_float -> spec_float := SFdiv prec emax.
Definition ltb : spec_float -> spec_float -> bool := SFltb.

(** Conversion of an integer to [float] (exact for the values used here). *)
Definition of_Z (n : Z) : spec_float := binary_normalize prec emax n 0 false.

(** Conversion of a [double] to [float]: rounding to nearest even. *)
Definition of_double (x : spec_float) : spec_float :=
  match x with
  | S754_finite s m e => binary_round prec emax s m e
  | _ => x
  end.

(** The [double] closest to the quotient of two small integers, as the
    compiler reads a decimal literal such as [255.9] or folds [1.0/255.0]. *)
Definition double_quot (p q : Z) : spec_float :=
  SFdiv 53 1024 (binary_normalize 53 1024 p 0 false)
                (binary_normalize 53 1024 q 0 false).

(** Conversion of a [float] to an integer type: the fractional part is
    discarded (truncation toward zero). *)
Definition to_Z (x : spec_float) : Z :=
  match x with
  | S754_finite s m (Zpos p) => cond_Zopp s (Zpos m * 2 ^ Zpos p)
  | S754_finite s m Z0 => cond_Zopp s (Zpos m)
  | S754_finite s m (Zneg p) => cond_Zopp s (Zpos m / 2 ^ Zpos p)
  | _ => 0
  end.

(** [std::min] and [std::max] on floats: [(b < a) ? b : a] and
    [(a < b) ? b : a]. *)
Definition min (a b : spec_float) : spec_float := if ltb b a then b else a.
Definition max (a b : spec_float) : spec_float := if ltb a b then b else a.

Definition is_finite (x : spec_float) : bool :=
  match x with
  | S754_zero _ | S754_finite _ _ _ => true
  | _ => false
  end.

(** The rational number a finite value stands for (0 for the others). *)
Definition to_Q (x : spec_float) : Q :=
  match x with
  | S754_finite s m e => (inject_Z (cond_Zopp s (Zpos m)) * 2 ^ e)%Q
  | _ => 0%Q
  end.

Definition zero : spec_float := S754_zero false.
Definition one : spec_float := Eval vm_compute in of_Z 1.

End F32.

Definition ColorReal : Type := spec_float.

(** [(unsigned char)] of an integer: reduction modulo 256. *)
Definition uchar (n : Z) : Z := n mod 256.

(* ================================================================== *)
(** ** PixelFormat *)

Definition PixelFormat : Type := Z.

Definition PF_RGB : PixelFormat := 0.
Definition PF_GRAY : PixelFormat := Z.shiftl 1 0.
Definition PF_A : PixelFormat := Z.shiftl 1 1.
Definition PF_Z : PixelFormat := Z.shiftl 1 2.
Definition PF_BGR : PixelFormat := Z.shiftl 1 3.
Definition PF_A_START : PixelFormat := Z.shiftl 1 4.
Definition PF_Z_START : PixelFormat := Z.shiftl 1 5.
Definition PF_ZA : PixelFormat := Z.shiftl 1 6.
Definition PF_A_INV : PixelFormat := Z.shiftl 1 7.
Definition PF_Z_INV : PixelFormat := Z.shiftl 1 8.
Definition PF_RAW_COLOR : PixelFormat := Z.shiftl 1 9 + Z.shiftl 1 1.
Definition PF_A_PREMULT : PixelFormat := Z.shiftl 1 10.

(** [operator|] and [operator&] on descriptors. *)
Definition pf_or (lhs rhs : PixelFormat) : PixelFormat := Z.lor lhs rhs.
Definition pf_and (lhs rhs : PixelFormat) : PixelFormat := Z.land lhs rhs.

(** [#define FLAGS(x,y) (((x)&(y))==(y))] *)
Definition FLAGS (x y : PixelFormat) : bool := pf_and x y =? y.

(** Modelled from the spec: the class [Color] (synfig/color/color.h) is not
    among the sources.  The spec describes it as four real-valued channels
    (R, G, B, A); with [ColorReal] a 32-bit float, [sizeof(Color)] is 16. *)
Definition sizeof_Color : Z := 16.

(** [channels]: the number of channels a PixelFormat calls for. *)
Definition channels (x : PixelFormat) : Z :=
  if FLAGS x PF_RAW_COLOR then sizeof_Color
  else
    let chan := if FLAGS x PF_GRAY then 1 else 3 in
    let chan := if FLAGS x PF_A then chan + 1 else chan in
    let chan := if FLAGS x PF_Z then chan + 1 else chan in
    chan.

(* ================================================================== *)
(** ** Color, Gamma and pixel memory *)

(** A [Color] object: the bit patterns of its four [float] members. *)
Record Color : Type := mkColor { r_ : Z; g_ : Z; b_ : Z; a_ : Z }.

Definition get_r (c : Color) : ColorReal := F32.of_bits (r_ c).
Definition get_g (c : Color) : ColorReal := F32.of_bits (g_ c).
Definition get_b (c : Color) : ColorReal := F32.of_bits (b_ c).
Definition get_a (c : Color) : ColorReal := F32.of_bits (a_ c).

Definition set_r (c : Color) (x : ColorReal) : Color :=
  mkColor (F32.to_bits x) (g_ c) (b_ c) (a_ c).
Definition set_g (c : Color) (x : ColorReal) : Color :=
  mkColor (r_ c) (F32.to_bits x) (b_ c) (a_ c).
Definition set_b (c : Color) (x : ColorReal) : Color :=
  mkColor (r_ c) (g_ c) (F32.to_bits x) (a_ c).
Definition set_a (c : Color) (x : ColorReal) : Color :=
  mkColor (r_ c) (g_ c) (b_ c) (F32.to_bits x).

(** Modelled from the spec: [Color::demult_alpha] (synfig/color/color.h) is
    not among the sources.  The spec: "alpha-demultiplication (divide R/G/B
    by premultiplied alpha)" and "for alpha == 0, demultiplied color is
    defined as black (division-by-zero case must not fault)". *)
Definition demult_alpha (c : Color) : Color :=
  let a := get_a c in
  if SFeqb a F32.zero then
    mkColor (F32.to_bits F32.zero) (F32.to_bits F32.zero)
            (F32.to_bits F32.zero) (a_ c)
  else
    mkColor (F32.to_bits (F32.div (get_r c) a))
            (F32.to_bits (F32.div (get_g c) a))
            (F32.to_bits (F32.div (get_b c) a)) (a_ c).

(** The interface of [Gamma] used by the encoder: one curve per channel,
    from a [float] to a 16-bit integer.  The class itself
    (synfig/color/gamma.h) is not among the sources. *)
Record Gamma : Type := mkGamma {
  r_F32_to_U16 : ColorReal -> Z;
  g_F32_to_U16 : ColorReal -> Z;
  b_F32_to_U16 : ColorReal -> Z
}.

(** Modelled from the spec: [Gamma::no_gamma], the identity curve at
    "16-bit intermediate precision": a value of [0,1] is scaled to
    [0,65535] and its fractional part dropped; values outside are clamped. *)
Definition identity_U16 (x : ColorReal) : Z :=
  if F32.is_finite x then
    Z.max 0 (Z.min 65535 (Qfloor (F32.to_Q x * 65535)))
  else 0.

Definition no_gamma : Gamma := mkGamma identity_U16 identity_U16 identity_U16.

(** Byte-addressed memory; a cursor is an address into it. *)
Definition memory : Type := Z -> Z.

Definition store (m : memory) (p v : Z) : memory :=
  fun q => if q =? p then v else m q.

Fixpoint store_bytes (m : memory) (p : Z) (l : list Z) : memory :=
  match l with
  | [] => m
  | v :: l' => store_bytes (store m p v) (p + 1) l'
  end.

Fixpoint load_bytes (m : memory) (p : Z) (n : nat) : list Z :=
  match n with
  | O => []
  | S n' => m p :: load_bytes m (p + 1) n'
  end.

(** The object representation of a [float] and of a [Color]: four bytes
    per member, least significant first, members in declaration order. *)
Definition word_bytes (w : Z) : list Z :=
  [w mod 256; (w / 2 ^ 8) mod 256; (w / 2 ^ 16) mod 256; (w / 2 ^ 24) mod 256].

Definition bytes_word (l : list Z) : Z :=
  nth 0 l 0 + 2 ^ 8 * nth 1 l 0 + 2 ^ 16 * nth 2 l 0 + 2 ^ 24 * nth 3 l 0.

Definition Color_bytes (c : Color) : list Z :=
  word_bytes (r_ c) ++ word_bytes (g_ c) ++ word_bytes (b_ c)
    ++ word_bytes (a_ c).

Definition bytes_Color (l : list Z) : Color :=
  mkColor (bytes_word (firstn 4 l)) (bytes_word (firstn 4 (skipn 4 l)))
          (bytes_word (firstn 4 (skipn 8 l)))
          (bytes_word (firstn 4 (skipn 12 l))).

(** [*out++ = v] and [++out] on a write cursor. *)
Definition put (o : memory * Z) (v : Z) : memory * Z :=
  (store (fst o) (snd o) v, snd o + 1).

Definition skip (o : memory * Z) : memory * Z := (fst o, snd o + 1).

(** Constants of the codec: [ColorReal(255.9)], [ColorReal(1.0/255.0)]. *)
Definition c255_9 : ColorReal :=
  Eval vm_compute in F32.of_double (F32.double_quot 2559 10).

Definition k255 : ColorReal :=
  Eval vm_compute in F32.of_double (F32.double_quot 1 255).

(* ================================================================== *)
(** ** The codec *)

Section Codec.

(** Members of [Color] the codec calls whose code is not among the
    sources: the table [EncodeYUV] and the setter [Color::set_yuv]. *)
Variable EncodeYUV : Z -> Z -> ColorReal.
Variable set_yuv : Color -> ColorReal -> ColorReal -> ColorReal -> Color.

Definition yuv_r : Z := F32.to_Z (F32.mul (EncodeYUV 0 0) (F32.of_Z 256)).
Definition yuv_g : Z := F32.to_Z (F32.mul (EncodeYUV 0 1) (F32.of_Z 256)).
Definition yuv_b : Z := 256 - yuv_r - yuv_g.

(** Lines 102-104: the 8-bit alpha [ac] of the encoder. *)
Definition encode_alpha (color : Color) (pf : PixelFormat) : Z :=
  let a := F32.max F32.zero (F32.min F32.one (get_a color)) in
  let ac := uchar (F32.to_Z (F32.mul a c255_9)) in
  if FLAGS pf PF_A_INV then uchar (255 - ac) else ac.

(** Lines 107-115: the 16-bit color values [ri], [gi], [bi]. *)
Definition encode_rgb (color : Color) (pf : PixelFormat) (gamma : Gamma)
  : Z * Z * Z :=
  let ac := encode_alpha color pf in
  let ri := r_F32_to_U16 gamma (get_r color) in
  let gi := g_F32_to_U16 gamma (get_g color) in
  let bi := b_F32_to_U16 gamma (get_b color) in
  if FLAGS pf PF_A_PREMULT then
    let ai := ac + 1 in
    (Z.shiftr (ri * ai) 8, Z.shiftr (gi * ai) 8, Z.shiftr (bi * ai) 8)
  else (ri, gi, bi).

(** [Color2PixelFormat]: encodes [color] at the cursor [out] and returns
    the memory written and the cursor advanced. *)
Definition Color2PixelFormat (color : Color) (pf : PixelFormat)
  (out : memory * Z) (gamma : Gamma) : memory * Z :=
  if FLAGS pf PF_RAW_COLOR then
    (* just copy raw color data *)
    (store_bytes (fst out) (snd out) (Color_bytes color),
     snd out + sizeof_Color)
  else
    let ac := encode_alpha color pf in
    let '(ri, gi, bi) := encode_rgb color pf gamma in
    (* put alpha and z-depth before color channels if need *)
    let out :=
      if FLAGS pf PF_ZA then
        let out := if FLAGS pf PF_Z_START then skip out else out in
        if FLAGS pf PF_A_START then put out ac else out
      else
        let out := if FLAGS pf PF_A_START then put out ac else out in
        if FLAGS pf PF_Z_START then skip out else out in
    (* put color channels *)
    let out :=
      if FLAGS pf PF_GRAY then
        put out (uchar (Z.shiftr (ri * yuv_r + gi * yuv_g + bi * yuv_b) 16))
      else if FLAGS pf PF_BGR then
        let out := put out (uchar (Z.shiftr bi 8)) in
        let out := put out (uchar (Z.shiftr gi 8)) in
        put out (uchar (Z.shiftr ri 8))
      else
        let out := put out (uchar (Z.shiftr ri 8)) in
        let out := put out (uchar (Z.shiftr gi 8)) in
        put out (uchar (Z.shiftr bi 8)) in
    (* put alpha and z-depth after color channels if need *)
    if FLAGS pf PF_ZA then
      let out :=
        if negb (FLAGS pf PF_Z_START) && FLAGS pf PF_Z then skip out
        else out in
      if negb (FLAGS pf PF_A_START) && FLAGS pf PF_A then put out ac else out
    else
      let out :=
        if negb (FLAGS pf PF_A_START) && FLAGS pf PF_A then put out ac
        else out in
      if negb (FLAGS pf PF_Z_START) && FLAGS pf PF_Z then skip out else out.

(** [k*ColorReal( *in++ )]: the channel value read at a cursor. *)
Definition unit_of_byte (v : Z) : ColorReal := F32.mul k255 (F32.of_Z v).

Definition read_channel (m : memory) (p : Z) : ColorReal :=
  unit_of_byte (m p).

(** [color.set_a(k*ColorReal( *in++ ))] and [++in] on the decoder's state,
    the color being built and the read cursor. *)
Definition read_a (m : memory) (s : Color * Z) : Color * Z :=
  (set_a (fst s) (read_channel m (snd s)), snd s + 1).

Definition next (s : Color * Z) : Color * Z := (fst s, snd s + 1).

(** [PixelFormat2Color]: decodes into [color] from the cursor [in_] and
    returns the color and the cursor advanced. *)
Definition PixelFormat2Color (color : Color) (pf : PixelFormat)
  (m : memory) (in_ : Z) : Color * Z :=
  if FLAGS pf PF_RAW_COLOR then
    (* just copy raw color data *)
    (bytes_Color (load_bytes m in_ (Z.to_nat sizeof_Color)),
     in_ + sizeof_Color)
  else
    let s := (color, in_) in
    (* read alpha and z-depth at begin if need *)
    let s :=
      if FLAGS pf PF_ZA then
        let s := if FLAGS pf PF_Z_START then next s else s in
        if FLAGS pf PF_A_START then read_a m s else s
      else
        let s := if FLAGS pf PF_A_START then read_a m s else s in
        if FLAGS pf PF_Z_START then next s else s in
    (* read color channels *)
    let s :=
      if FLAGS pf PF_GRAY then
        (set_yuv (fst s) (read_channel m (snd s)) (F32.of_Z 0) (F32.of_Z 0),
         snd s + 1)
      else if FLAGS pf PF_BGR then
        let s := (set_b (fst s) (read_channel m (snd s)), snd s + 1) in
        let s := (set_g (fst s) (read_channel m (snd s)), snd s + 1) in
        (set_r (fst s) (read_channel m (snd s)), snd s + 1)
      else
        let s := (set_r (fst s) (read_channel m (snd s)), snd s + 1) in
        let s := (set_g (fst s) (read_channel m (snd s)), snd s + 1) in
        (set_b (fst s) (read_channel m (snd s)), snd s + 1) in
    (* read alpha and z-depth at end if need *)
    let s :=
      if FLAGS pf PF_ZA then
        let s :=
          if negb (FLAGS pf PF_Z_START) && FLAGS pf PF_Z then next s else s in
        if negb (FLAGS pf PF_A_START) && FLAGS pf PF_A then read_a m s else s
      else
        let s :=
          if negb (FLAGS pf PF_A_START) && FLAGS pf PF_A then read_a m s
          else s in
        if negb (FLAGS pf PF_Z_START) && FLAGS pf PF_Z then next s else s in
    (* invert alpha *)
    let color :=
      if FLAGS pf PF_A_INV then
        set_a (fst s) (F32.sub F32.one (get_a (fst s)))
      else fst s in
    (* demult alpha *)
    let color :=
      if FLAGS pf PF_A_PREMULT then demult_alpha color else color in
    (color, snd s).

End Codec.

(** An instance of the absent [Color] members, used to run the codec on
    concrete pixels: the luma row 0.299, 0.587, 0.114, and a [set_yuv]
    that, for the zero chroma the decoder passes, sets R = G = B = y
    ("gray sets all of internal luma representation"). *)
Definition EncodeYUV_luma (i j : Z) : ColorReal :=
  if i =? 0 then
    if j =? 0 then F32.of_double (F32.double_quot 299 1000)
    else if j =? 1 then F32.of_double (F32.double_quot 587 1000)
    else F32.of_double (F32.double_quot 114 1000)
  else F32.zero.

Definition set_yuv_gray (c : Color) (y u v : ColorReal) : Color :=
  set_b (set_g (set_r c y) y) y.


(** [convert_color_format]: encodes the [w] colors of [src] one after the
    other; [clamped] stands for [Color::clamped], not among the sources. *)
Fixpoint convert_color_format (EncodeYUV : Z -> Z -> ColorReal)
  (clamped : Color -> Color) (dest : memory * Z) (src : list Color)
  (pf : PixelFormat) (gamma : Gamma) : memory * Z :=
  match src with
  | [] => dest
  | c :: src' =>
      convert_color_format EncodeYUV clamped
        (Color2PixelFormat EncodeYUV (clamped c) pf dest gamma) src' pf gamma
  end.

(** The reader that mirrors it: decodes [w] pixels one after the other
    and returns the read cursor. *)
Fixpoint decode_pixels
  (set_yuv : Color -> ColorReal -> ColorReal -> ColorReal -> Color)
  (w : nat) (color : Color) (pf : PixelFormat) (m : memory) (in_ : Z) : Z :=
  match w with
  | O => in_
  | S w' =>
      decode_pixels set_yuv w' color pf m
        (snd (PixelFormat2Color set_yuv color pf m in_))
  end.

(* ================================================================== *)
(** ** Vocabulary of the properties *)

(** Bytes one pixel occupies in the stream of the codec. *)
Definition pixel_size (pf : PixelFormat) : Z :=
  if FLAGS pf PF_RAW_COLOR then sizeof_Color
  else
    (if FLAGS pf PF_GRAY then 1 else 3)
    + (if FLAGS pf PF_A_START || FLAGS pf PF_A then 1 else 0)
    + (if FLAGS pf PF_Z_START || FLAGS pf PF_Z then 1 else 0).

(** The layout has an alpha byte. *)
Definition stores_alpha (pf : PixelFormat) : bool :=
  FLAGS pf PF_A_START || FLAGS pf PF_A.

(** A channel value in [0,1]. *)
Definition in_unit (x : ColorReal) : Prop :=
  F32.is_finite x = true /\ (0 <= F32.to_Q x <= 1)%Q.

Definition unit_Color (c : Color) : Prop :=
  in_unit (get_r c) /\ in_unit (get_g c) /\ in_unit (get_b c)
  /\ in_unit (get_a c).

(** Every member of the color is a 32-bit pattern. *)
Definition wf_Color (c : Color) : Prop :=
  0 <= r_ c < 2 ^ 32 /\ 0 <= g_ c < 2 ^ 32 /\ 0 <= b_ c < 2 ^ 32
  /\ 0 <= a_ c < 2 ^ 32.

(** Two channel values differ by at most [tol]. *)
Definition within (tol : Q) (x y : ColorReal) : Prop :=
  (Qabs (F32.to_Q x - F32.to_Q y) <= tol)%Q.

(** One quantization step of an 8-bit channel. *)
Definition step : Q := 1 # 255.

(** Modelled from the spec: what makes a [Gamma] curve the identity at
    "16-bit intermediate precision": a value [x] of [0,1] is sent to an
    integer of [0,65535] that is [65535 x] truncated or rounded to
    nearest. *)
Definition identity_curve (f : ColorReal -> Z) : Prop :=
  forall x, in_unit x ->
    0 <= f x <= 65535 /\
    (65535 * F32.to_Q x - 1 < inject_Z (f x)
     /\ inject_Z (f x) <= 65535 * F32.to_Q x + (1 # 2))%Q.

Definition identity_gamma (g : Gamma) : Prop :=
  identity_curve (r_F32_to_U16 g) /\ identity_curve (g_F32_to_U16 g)
  /\ identity_curve (b_F32_to_U16 g).

(** The source alpha clamped to [0,1], as line 102 computes it. *)
Definition clamp01 (x : ColorReal) : ColorReal :=
  F32.max F32.zero (F32.min F32.one x).

(** The alpha rule in the spec's words: "clamp the source color's alpha to
    [0,1]; scale to an 8-bit value using round(a * 255.9)", [round] being
    rounding to nearest. *)
Definition spec_round (x : Q) : Z := Qfloor (x + (1 # 2)).

Definition spec_alpha (color : Color) (pf : PixelFormat) : Z :=
  let a := F32.to_Q (clamp01 (get_a color)) in
  let v := spec_round (a * (2559 # 10)) in
  if FLAGS pf PF_A_INV then 255 - v else v.

(** The value a channel byte decodes to, as it is read back from the
    [Color] member it was stored in. *)
Definition decoded (v : Z) : ColorReal :=
  F32.of_bits (F32.to_bits (unit_of_byte v)).

Definition decoded_inv (v : Z) : ColorReal :=
  F32.of_bits (F32.to_bits (F32.sub F32.one (decoded v))).

(* ================================================================== *)
(** ** Vocabulary of the proofs *)

(** Shape of the values that bit patterns denote. *)
Definition canonical32 (x : spec_float) : Prop :=
  match x with
  | S754_finite _ m e =>
      Zpos m < 2 ^ 24 /\ -149 <= e <= 104 /\ (e = -149 \/ 2 ^ 23 <= Zpos m)
  | _ => True
  end.

(** Values scaled to integers.
    Every finite binary32 value is a multiple of [2^-149]; scaled by
    [2^200] it is an integer, which keeps the arithmetic of the bounds
    in [Z]. *)
Definition scaled (x : spec_float) : Z :=
  match x with
  | S754_finite s m e => cond_Zopp s (Zpos m) * 2 ^ (e + 200)
  | _ => 0
  end.

(** Exponents the scaling covers. *)
Definition fine (x : spec_float) : Prop :=
  match x with S754_finite _ _ e => -200 <= e | _ => True end.

Definition S200 : Q := Eval vm_compute in inject_Z (2 ^ 200).

(** The 8-bit alpha before inversion: [a*255.9f] truncated, [a] clamped. *)
Definition alpha8 (x : ColorReal) : Z :=
  F32.to_Z (F32.mul (clamp01 x) c255_9).

Definition all_below (n : nat) (f : Z -> bool) : bool :=
  forallb f (map Z.of_nat (seq 0 n)).

(** A decoded color byte [b] is within a step of every value that an
    identity curve and the shift by 8 send to [b]. *)
Definition color_ok (b : Z) : bool :=
  let Ds := scaled (decoded b) in
  let S := 2 ^ 200 in
  (131070 * (255 * Ds - S) <=? 255 * (512 * b - 1) * S)
  && ((255 * (512 * b + 512) * S <=? 131070 * (255 * Ds + S))
      || (255 * S <=? 255 * Ds + S)).

(** A decoded alpha byte [n] is within a step of every alpha that
    line 103 sends to [n]. *)
Definition alpha_ok (n : Z) : bool :=
  let Ds := scaled (decoded n) in
  let S := 2 ^ 200 in
  (16770662 * (255 * Ds - S) <=? 255 * (n * 2 ^ 216 - S))
  && (255 * ((n + 1) * 2 ^ 216 + S) <=? 16770662 * (255 * Ds + S)).

(** The same for an inverted alpha byte [255 - n]. *)
Definition alpha_inv_ok (n : Z) : bool :=
  let Ds := scaled (decoded_inv (255 - n)) in
  let S := 2 ^ 200 in
  (16770662 * (255 * Ds - S) <=? 255 * (n * 2 ^ 216 - S))
  && (255 * ((n + 1) * 2 ^ 216 + S) <=? 16770662 * (255 * Ds + S)).

(** Bytes before the color channels. *)
Definition before_size (pf : PixelFormat) : Z :=
  (if FLAGS pf PF_A_START then 1 else 0)
  + (if FLAGS pf PF_Z_START then 1 else 0).

Definition color_size (pf : PixelFormat) : Z :=
  if FLAGS pf PF_GRAY then 1 else 3.

(** Offsets of the alpha byte and of the three color bytes. *)
Definition alpha_offset (pf : PixelFormat) : Z :=
  if FLAGS pf PF_A_START then
    if FLAGS pf PF_ZA && FLAGS pf PF_Z_START then 1 else 0
  else
    before_size pf + color_size pf
    + (if FLAGS pf PF_ZA && negb (FLAGS pf PF_Z_START) && FLAGS pf PF_Z
       then 1 else 0).

Definition red_offset (pf : PixelFormat) : Z :=
  before_size pf + (if FLAGS pf PF_BGR then 2 else 0).
Definition green_offset (pf : PixelFormat) : Z := before_size pf + 1.
Definition blue_offset (pf : PixelFormat) : Z :=
  before_size pf + (if FLAGS pf PF_BGR then 0 else 2).

(** The post-processing of the decoder (lines 212-218). *)
Definition finish (pf : PixelFormat) (c : Color) : Color :=
  let c :=
    if FLAGS pf PF_A_INV then set_a c (F32.sub F32.one (get_a c)) else c in
  if FLAGS pf PF_A_PREMULT then demult_alpha c else c.

Ltac store_eqb :=
  repeat match goal with
  | |- context [?a =? ?b] =>
      first [ replace (a =? b) with true by (symmetry; apply Z.eqb_eq; lia)
            | replace (a =? b) with false by (symmetry; apply Z.eqb_neq; lia) ]
  end.

Ltac norm_addr m p0 :=
  repeat match goal with
  | |- context [m ?p] =>
      lazymatch p with
      | p0 => fail
      | p0 + 1 => fail
      | p0 + 2 => fail
      | p0 + 3 => fail
      | p0 + 4 => fail
      | _ =>
          first [ replace p with p0 by lia
                | replace p with (p0 + 1) by lia
                | replace p with (p0 + 2) by lia
                | replace p with (p0 + 3) by lia
                | replace p with (p0 + 4) by lia ]
      end
  end.

Ltac layout_cases pf :=
  destruct (FLAGS pf PF_ZA), (FLAGS pf PF_Z_START), (FLAGS pf PF_A_START),
    (FLAGS pf PF_BGR), (FLAGS pf PF_Z), (FLAGS pf PF_A).

(** Concrete pixels: the bits of the [float] closest to [p/q], an empty
    memory. *)
Definition real (p q : Z) : Z := F32.to_bits (F32.of_double (F32.double_quot p q)).
Definition mem0 : memory := fun _ => 0.

Definition spec_example : Color :=
  mkColor (real 1 2) (real 1 4) (real 3 4) (real 1 1).

Ltac unit_by_computation :=
  split; [reflexivity | split; vm_compute; discriminate].

(** The channel the decoder returns for a premultiplied byte [b] under
    the alpha byte [n]. *)
Definition decoded_div (b n : Z) : ColorReal :=
  F32.of_bits (F32.to_bits (F32.div (decoded b) (decoded n))).

Definition premult_ok (n b : Z) : bool :=
  let Ds := scaled (decoded_div b n) in
  let S := 2 ^ 200 in
  F32.is_finite (decoded_div b n)
  && negb (SFeqb (decoded n) F32.zero)
  && ((131070 * (n + 1) * (n * Ds - S) <=? n * (131072 * b - (n + 1)) * S)
      || (n * Ds - S <=? 0))
  && ((n * (131072 * b + 131070 + 2 * (n + 1)) * S
         <=? 131070 * (n + 1) * (n * Ds + S))
      || (n * S <=? n * Ds + S)).

Definition premult_cell (n b : Z) : bool := (n <? b) || premult_ok n b.

Definition premult_row (n : Z) : bool :=
  (n =? 0) || all_below 256 (premult_cell n).

Definition half_alpha_example : Color :=
  mkColor (real 1 2) (real 1 4) (real 3 4) (real 1 2).

(** The gray byte of the encoder (line 128). *)
Definition gray_byte (EncodeYUV : Z -> Z -> ColorReal) (color : Color)
  (pf : PixelFormat) (gamma : Gamma) : Z :=
  let '(ri, gi, bi) := encode_rgb color pf gamma in
  uchar (Z.shiftr (ri * yuv_r EncodeYUV + gi * yuv_g EncodeYUV
                   + bi * yuv_b EncodeYUV) 16).

(** The byte a layout holds at offset [k] of a pixel, [None] where the
    layout has no channel of the color. *)
Definition pixel_byte (EncodeYUV : Z -> Z -> ColorReal) (color : Color)
  (pf : PixelFormat) (gamma : Gamma) (k : Z) : option Z :=
  let '(ri, gi, bi) := encode_rgb color pf gamma in
  if stores_alpha pf && (k =? alpha_offset pf) then
    Some (encode_alpha color pf)
  else if FLAGS pf PF_GRAY then
    if k =? before_size pf then Some (gray_byte EncodeYUV color pf gamma)
    else None
  else if k =? red_offset pf then Some (uchar (Z.shiftr ri 8))
  else if k =? green_offset pf then Some (uchar (Z.shiftr gi 8))
  else if k =? blue_offset pf then Some (uchar (Z.shiftr bi 8))
  else None.

Ltac eqb_cases :=
  repeat match goal with
  | |- context [?a =? ?b] => destruct (Z.eqb_spec a b)
  end.

(** The bits of a descriptor the codec tests: all of bits 0 to 10 but
    bit 8 ([PF_Z_INV]). *)
Definition codec_bits : list Z := [0; 1; 2; 3; 4; 5; 6; 7; 9; 10].

Definition same_codec_bits (pf pf' : PixelFormat) : Prop :=
  forall i, In i codec_bits -> Z.testbit pf i = Z.testbit pf' i.

(** The address that holds, without [PF_BGR], the byte that a cursor at
    [base] holds at [p] with it: the first and the third color byte
    change places. *)
Definition exchange_red_blue (pf : PixelFormat) (base p : Z) : Z :=
  if p =? base + before_size pf then p + 2
  else if p =? base + before_size pf + 2 then p - 2
  else p.

(** Offset of the depth slot, when the layout has one. *)
Definition depth_offset (pf : PixelFormat) : Z :=
  if FLAGS pf PF_Z_START then
    if FLAGS pf PF_ZA then 0
    else if FLAGS pf PF_A_START then 1 else 0
  else
    before_size pf + color_size pf
    + (if FLAGS pf PF_ZA then 0
       else if negb (FLAGS pf PF_A_START) && FLAGS pf PF_A then 1 else 0).

(** The layout has a depth slot. *)
Definition has_depth (pf : PixelFormat) : bool :=
  FLAGS pf PF_Z_START || FLAGS pf PF_Z.

(** [in_unit] as a test. *)
Definition in_unit_bool (x : ColorReal) : bool :=
  F32.is_finite x && Qle_bool 0 (F32.to_Q x) && Qle_bool (F32.to_Q x) 1.

(** The value a byte [b] decodes to is encoded as [b] again: as a color
    byte by every identity curve, as an alpha byte, and as an inverted
    alpha byte. *)
Definition restable_ok (b : Z) : bool :=
  let Ds := scaled (decoded b) in
  let S := 2 ^ 200 in
  in_unit_bool (decoded b)
  && (2 * (256 * b - 1) * S <=? 131070 * Ds - 2 * S)
  && (131070 * Ds + S <? 2 * (256 * b + 256) * S)
  && (alpha8 (decoded b) =? b)
  && (alpha8 (decoded_inv (255 - b)) =? b).

(** The curves of a [Gamma] return 16-bit values, as the names
    [r_F32_to_U16], [g_F32_to_U16] and [b_F32_to_U16] say. *)
Definition U16_gamma (g : Gamma) : Prop :=
  forall x,
    0 <= r_F32_to_U16 g x <= 65535 /\ 0 <= g_F32_to_U16 g x <= 65535
    /\ 0 <= b_F32_to_U16 g x <= 65535.

(* ================================================================== *)
(** ** ValueNode_SegCalcVertex *)

Module SegCalcVertex.

Inductive Exception : Type :=
| BadLinkName (name : string)
| BadType (name : string).

(** What a call ends in: a value, a thrown exception, or the abort of a
    failed [assert]. *)
Inductive outcome (A : Type) : Type :=
| Return (a : A)
| Throw (e : Exception)
| AssertionFailed.

Arguments Return {A} a.
Arguments Throw {A} e.
Arguments AssertionFailed {A}.

Definition link_count : Z := 2.

Definition link_name (i : Z) : outcome string :=
  if negb ((i =? 0) || (i =? 1)) then AssertionFailed
  else if i =? 0 then Return "segment"%string
  else if i =? 1 then Return "amount"%string
  else Return EmptyString.

Definition get_link_index_from_name (name : string) : outcome Z :=
  if String.eqb name "segment" then Return 0
  else if String.eqb name "amount" then Return 1
  else Throw (BadLinkName name).

(** The signals a node emits. *)
Inductive signal : Type :=
| child_changed (i : Z)
| value_changed.

Section Node.

(** [ValueNode::Handle], with its null handle. *)
Variable Handle : Type.
Variable null : Handle.

(** The members [segment_] and [amount_] of the node, and the signals it
    has emitted so far, oldest first. *)
Record node : Type := mkNode {
  segment_ : Handle;
  amount_ : Handle;
  emitted : list signal
}.

(** [set_link_vfunc]: the node after the call and the value returned. *)
Definition set_link_vfunc (n : node) (i : Z) (x : Handle)
  : outcome (node * bool) :=
  if negb ((i =? 0) || (i =? 1)) then AssertionFailed
  else if i =? 0 then
    Return (mkNode x (amount_ n)
              (emitted n ++ [child_changed i; value_changed]), true)
  else if i =? 1 then
    Return (mkNode (segment_ n) x
              (emitted n ++ [child_changed i; value_changed]), true)
  else Return (n, false).

Definition get_link_vfunc (n : node) (i : Z) : outcome Handle :=
  if negb ((i =? 0) || (i =? 1)) then AssertionFailed
  else if i =? 0 then Return (segment_ n)
  else if i =? 1 then Return (amount_ n)
  else Return null.

End Node.

Arguments mkNode {Handle} _ _ _.
Arguments segment_ {Handle} _.
Arguments amount_ {Handle} _.
Arguments emitted {Handle} _.
Arguments set_link_vfunc {Handle} _ _ _.
Arguments get_link_vfunc {Handle} _ _ _.

End SegCalcVertex.

(* ================================================================== *)
(** ** Proofs *)

Lemma FLAGS_spec x y :
  FLAGS x y = true <-> (forall i, 0 <= i -> Z.testbit y i = true -> Z.testbit x i = true).
Proof.
  unfold FLAGS, pf_and. rewrite Z.eqb_eq. split.
  - intros H i Hi Hy. rewrite <- H in Hy. rewrite Z.land_spec in Hy.
    apply andb_true_iff in Hy. tauto.
  - intros H. apply Z.bits_inj'. intros i Hi. rewrite Z.land_spec.
    destruct (Z.testbit y i) eqn:Hy.
    + rewrite (H i Hi Hy). reflexivity.
    + apply andb_false_r.
Qed.

Lemma FLAGS_bit x k : 0 <= k -> FLAGS x (Z.shiftl 1 k) = Z.testbit x k.
Proof.
  intros Hk. apply eq_true_iff_eq. rewrite FLAGS_spec. split.
  - intros H. apply H; [exact Hk|]. rewrite Z.shiftl_1_l. apply Z.pow2_bits_true. exact Hk.
  - intros H i Hi Hy. rewrite Z.shiftl_1_l in Hy.
    rewrite Z.pow2_bits_eqb in Hy by exact Hk. apply Z.eqb_eq in Hy. subst i. exact H.
Qed.

Lemma FLAGS_RAW x : FLAGS x PF_RAW_COLOR = Z.testbit x 9 && Z.testbit x 1.
Proof.
  apply eq_true_iff_eq. rewrite FLAGS_spec, andb_true_iff. split.
  - intros H. split; apply H; try lia; reflexivity.
  - intros [H9 H1] i Hi Hy.
    assert (i = 9 \/ i = 1) as [-> | ->]; [|assumption..].
    destruct (Z.eq_dec i 9); [auto|]. destruct (Z.eq_dec i 1); [auto|].
    exfalso. 
    assert (Z.testbit PF_RAW_COLOR i = false); [|congruence].
    change PF_RAW_COLOR with (Z.lor (2^9) (2^1)).
    rewrite Z.lor_spec, !Z.pow2_bits_eqb by lia.
    apply orb_false_iff; split; apply Z.eqb_neq; congruence.
Qed.

Lemma digits2_pos_bounds p :
  2 ^ (Zpos (digits2_pos p) - 1) <= Zpos p < 2 ^ Zpos (digits2_pos p).
Proof.
  induction p as [p IH | p IH |]; cbn [digits2_pos].
  - rewrite Pos2Z.inj_succ.
    replace (Z.succ (Zpos (digits2_pos p)) - 1) with (Z.succ (Zpos (digits2_pos p) - 1)) by lia.
    rewrite !Z.pow_succ_r by lia. lia.
  - rewrite Pos2Z.inj_succ.
    replace (Z.succ (Zpos (digits2_pos p)) - 1) with (Z.succ (Zpos (digits2_pos p) - 1)) by lia.
    rewrite !Z.pow_succ_r by lia. lia.
  - cbn. lia.
Qed.

Lemma shr_1_m mrs : 0 <= shr_m mrs -> shr_m (shr_1 mrs) = shr_m mrs / 2.
Proof.
  destruct mrs as [m r s]. cbn [shr_m]. intros Hm.
  destruct m as [|[p|p|]|p]; cbn [shr_1 shr_m]; try lia; try reflexivity.
  - apply Z.div_unique with (r := 1); lia.
  - apply Z.div_unique with (r := 0); lia.
Qed.

Lemma iter_shr_1_m p : forall mrs,
  0 <= shr_m mrs -> shr_m (iter_pos shr_1 p mrs) = shr_m mrs / 2 ^ Zpos p.
Proof.
  induction p as [p IH | p IH |]; intros mrs Hm; cbn [iter_pos].
  - assert (H1 := shr_1_m mrs Hm).
    assert (H2 : 0 <= shr_m (shr_1 mrs)) by (rewrite H1; apply Z.div_pos; lia).
    assert (Hp : 0 < 2 ^ Zpos p) by (apply Z.pow_pos_nonneg; lia).
    assert (H3 := IH _ H2).
    assert (H4 : 0 <= shr_m (iter_pos shr_1 p (shr_1 mrs)))
      by (rewrite H3; apply Z.div_pos; lia).
    rewrite (IH _ H4), H3, H1. change (Zpos p~1) with (2 * Zpos p + 1).
    replace (2 * Zpos p + 1) with (1 + Zpos p + Zpos p) by lia.
    rewrite !Z.pow_add_r by lia. rewrite !Z.div_div by lia.
    f_equal. change (2 ^ 1) with 2. lia.
  - assert (Hp : 0 < 2 ^ Zpos p) by (apply Z.pow_pos_nonneg; lia).
    assert (H3 := IH _ Hm).
    assert (H4 : 0 <= shr_m (iter_pos shr_1 p mrs))
      by (rewrite H3; apply Z.div_pos; lia).
    rewrite (IH _ H4), H3. change (Zpos p~0) with (2 * Zpos p).
    replace (2 * Zpos p) with (Zpos p + Zpos p) by lia.
    rewrite !Z.pow_add_r by lia. rewrite !Z.div_div by lia. reflexivity.
  - rewrite shr_1_m by assumption. reflexivity.
Qed.

Lemma round_nearest_even_cases m l :
  round_nearest_even m l = m \/ round_nearest_even m l = m + 1.
Proof.
  destruct l as [|[| |]]; cbn; auto. destruct (Z.even m); auto.
Qed.

Lemma Zdigits2_le24 m : 0 < m < 2 ^ 24 -> Zdigits2 m <= 24.
Proof.
  intros H. destruct m as [|p|p]; try lia. cbn [Zdigits2].
  destruct (digits2_pos_bounds p) as [H1 _].
  destruct (Z_le_gt_dec (Zpos (digits2_pos p)) 24) as [|Hgt]; [assumption|].
  exfalso. assert (2 ^ 24 <= 2 ^ (Zpos (digits2_pos p) - 1)) by (apply Z.pow_le_mono_r; lia). lia.
Qed.

(** The rounding step of the binary32 operations: the result is within
    one unit of the last place of the exact value. *)
Lemma binary_round_aux_shape (M : positive) (E : Z) :
  let e1 := fexp 24 128 (Zpos (digits2_pos M) + E) in
  e1 < 104 -> E <= 104 ->
  (e1 <= E /\ binary_round_aux 24 128 false (Zpos M) E loc_Exact = S754_finite false M E) \/
  (E < e1 /\ exists m2,
      Zpos M / 2 ^ (e1 - E) <= m2 <= Zpos M / 2 ^ (e1 - E) + 1 /\
      ((m2 = 0 /\ binary_round_aux 24 128 false (Zpos M) E loc_Exact = S754_zero false) \/
       (exists p e2, binary_round_aux 24 128 false (Zpos M) E loc_Exact = S754_finite false p e2
           /\ e1 <= e2 /\ Zpos p * 2 ^ (e2 - e1) = m2))).
Proof.
  intros e1 He1 HE.
  assert (Hfexp : forall x, fexp 24 128 x = Z.max (x - 24) (-149)) by reflexivity.
  unfold binary_round_aux, shr_fexp. cbn [Zdigits2 shr_record_of_loc].
  fold e1.
  destruct (Z_le_gt_dec e1 E) as [Hle | Hgt].
  - left. split; [assumption|].
    assert (Hn : shr {| shr_m := Zpos M; shr_r := false; shr_s := false |} E (e1 - E)
                 = ({| shr_m := Zpos M; shr_r := false; shr_s := false |}, E)).
    { unfold shr. destruct (e1 - E) eqn:Hd; try reflexivity. lia. }
    rewrite Hn. cbn [shr_m loc_of_shr_record round_nearest_even Zdigits2 shr_record_of_loc].
    fold e1. rewrite Hn. cbn [shr_m].
    destruct (E <=? 128 - 24) eqn:Hc; [reflexivity|]. apply Z.leb_gt in Hc. lia.
  - right. split; [lia|].
    destruct (e1 - E) as [|n|n] eqn:Hd; try lia.
    cbn [shr].
    set (mrs := iter_pos shr_1 n _).
    assert (Hm1 : shr_m mrs = Zpos M / 2 ^ Zpos n).
    { unfold mrs. rewrite iter_shr_1_m; cbn [shr_m]; [reflexivity | lia]. }
    set (m2 := round_nearest_even (shr_m mrs) (loc_of_shr_record mrs)).
    assert (Hm2 : shr_m mrs <= m2 <= shr_m mrs + 1).
    { destruct (round_nearest_even_cases (shr_m mrs) (loc_of_shr_record mrs)); fold m2 in H; lia. }
    exists m2. rewrite <- Hm1. split; [exact Hm2|].
    assert (H0 : 0 <= shr_m mrs) by (rewrite Hm1; apply Z.div_pos; lia).
    assert (Hlt : shr_m mrs < 2 ^ 24).
    { rewrite Hm1. apply Z.div_lt_upper_bound; [lia|].
      destruct (digits2_pos_bounds M) as [_ Hub].
      eapply Z.lt_le_trans; [exact Hub|].
      rewrite <- Z.pow_add_r by lia. apply Z.pow_le_mono_r; [lia|].
      unfold e1 in Hd. rewrite Hfexp in Hd. lia. }
    assert (He1' : -149 <= e1) by (unfold e1; rewrite Hfexp; lia).
    replace (E + Zpos n) with e1 by lia.
    destruct (Z.eq_dec m2 0) as [Hz | Hnz].
    + left. split; [assumption|]. rewrite Hz. cbn [Zdigits2].
      replace (fexp 24 128 (0 + e1) - e1) with (Z.max (-24) (-149 - e1)) by (rewrite Hfexp; lia).
      assert (Hs : forall k, k <= 0 -> shr {| shr_m := 0; shr_r := false; shr_s := false |} e1 k
                  = ({| shr_m := 0; shr_r := false; shr_s := false |}, e1)).
      { intros k Hk. unfold shr. destruct k; try reflexivity. lia. }
      rewrite Hs by lia. reflexivity.
    + right. destruct (Z.eq_dec m2 (2 ^ 24)) as [Hc | Hnc].
      * exists (2 ^ 23)%positive, (e1 + 1). split; [|split; [lia|]].
        -- rewrite Hc. cbn [Zdigits2 Z.pow Z.pow_pos Pos.iter Z.mul Pos.mul digits2_pos Pos.succ].
           replace (fexp 24 128 (25 + e1) - e1) with 1 by (rewrite Hfexp; lia).
           cbn [shr iter_pos shr_1 shr_m].
           destruct (e1 + 1 <=? 128 - 24) eqn:Hcc; [reflexivity|]. apply Z.leb_gt in Hcc. lia.
        -- rewrite Hc. replace (e1 + 1 - e1) with 1 by lia. reflexivity.
      * assert (Hd2 : Zdigits2 m2 <= 24) by (apply Zdigits2_le24; lia).
        destruct m2 as [|p|p]; try lia.
        exists p, e1. split; [|split; [lia|]].
        -- assert (Hs : forall k, k <= 0 -> shr {| shr_m := Zpos p; shr_r := false; shr_s := false |} e1 k
                  = ({| shr_m := Zpos p; shr_r := false; shr_s := false |}, e1)).
           { intros k Hk. unfold shr. destruct k; try reflexivity. lia. }
           rewrite Hs by (rewrite Hfexp; lia). cbn [shr_m].
           destruct (e1 <=? 128 - 24) eqn:Hcc; [reflexivity|]. apply Z.leb_gt in Hcc. lia.
        -- rewrite Z.sub_diag. cbn. lia.
Qed.

Lemma of_bits_canonical w : canonical32 (F32.of_bits w).
Proof.
  unfold F32.of_bits.
  assert (HE : 0 <= Z.land (Z.shiftr w 23) 255 < 256).
  { change 255 with (Z.ones 8). rewrite Z.land_ones by lia. apply Z.mod_pos_bound. lia. }
  assert (Hf : 0 <= Z.land w (Z.ones 23) < 2 ^ 23).
  { rewrite Z.land_ones by lia. apply Z.mod_pos_bound. lia. }
  set (E := Z.land (Z.shiftr w 23) 255) in *.
  set (f := Z.land w (Z.ones 23)) in *.
  destruct (E =? 0) eqn:H0.
  - destruct f as [|p|p] eqn:Hfp; cbn; try exact I. lia.
  - apply Z.eqb_neq in H0. destruct (E =? 255) eqn:H255.
    + destruct (f =? 0); exact I.
    + apply Z.eqb_neq in H255.
      destruct (f + 2 ^ 23) as [|p|p] eqn:Hp; cbn; try exact I. lia.
Qed.

Lemma get_canonical c :
  canonical32 (get_r c) /\ canonical32 (get_g c) /\ canonical32 (get_b c)
  /\ canonical32 (get_a c).
Proof.
  split; [|split; [|split]]; apply of_bits_canonical.
Qed.

(** The clamp of line 102 yields +0, 1 or a positive value below 1. *)
Lemma clamp01_cases x :
  canonical32 x ->
  clamp01 x = F32.zero \/
  exists m e, clamp01 x = S754_finite false m e /\
    Zpos m < 2 ^ 24 /\ -149 <= e /\ (e <= -24 \/ (e = -23 /\ Zpos m <= 2 ^ 23)).
Proof.
  intros Hx. unfold clamp01, F32.min, F32.max, F32.ltb, SFltb.
  destruct x as [s | s | | s m e].
  - left. destruct s; reflexivity.
  - destruct s; [left; reflexivity|].
    right. exists (2 ^ 23)%positive, (-23). cbn. split; [reflexivity | lia].
  - right. exists (2 ^ 23)%positive, (-23). cbn. split; [reflexivity | lia].
  - destruct s; [left; reflexivity|].
    cbn in Hx. destruct Hx as (Hm & He & Hn).
    right. cbn [SFcompare F32.one].
    destruct (e ?= -23) eqn:Hc.
    + apply Z.compare_eq in Hc. subst e.
      destruct (Pos.compare_cont Eq m 8388608) eqn:Hm2.
      * exists (2 ^ 23)%positive, (-23). cbn. split; [reflexivity | lia].
      * exists m, (-23). cbn. split; [reflexivity|]. split; [lia|]. split; [lia|].
        right. split; [reflexivity|].
        assert (Hlt := proj1 (Pos.compare_lt_iff m 8388608) Hm2).
        clear Hm2. apply Pos2Z.pos_lt_pos in Hlt. apply Z.lt_le_incl. exact Hlt.
      * exists (2 ^ 23)%positive, (-23). cbn. split; [reflexivity | lia].
    + exists m, e. cbn. rewrite Z.compare_lt_iff in Hc. split; [reflexivity | lia].
    + exists (2 ^ 23)%positive, (-23). cbn. split; [reflexivity | lia].
Qed.

Lemma to_Z_scaled p e :
  -200 <= e ->
  F32.to_Z (S754_finite false p e) * 2 ^ 200 <= Zpos p * 2 ^ (e + 200)
  /\ Zpos p * 2 ^ (e + 200) < (F32.to_Z (S754_finite false p e) + 1) * 2 ^ 200.
Proof.
  intros He. assert (H200 : 0 < 2 ^ 200) by (apply Z.pow_pos_nonneg; lia).
  destruct e as [|q|q]; cbn [F32.to_Z cond_Zopp].
  - change (0 + 200) with 200. lia.
  - rewrite Z.pow_add_r by lia. nia.
  - assert (Hq : 0 < 2 ^ Zpos q) by (apply Z.pow_pos_nonneg; lia).
    assert (Hs : 2 ^ 200 = 2 ^ Zpos q * 2 ^ (Zneg q + 200)).
    { rewrite <- Z.pow_add_r by lia. f_equal. lia. }
    assert (Hr : 0 < 2 ^ (Zneg q + 200)) by (apply Z.pow_pos_nonneg; lia).
    pose proof (Z.mul_div_le (Zpos p) (2 ^ Zpos q) Hq) as Hlo.
    pose proof (Z.mul_succ_div_gt (Zpos p) (2 ^ Zpos q) Hq) as Hhi.
    rewrite Hs. set (N := Zpos p / 2 ^ Zpos q) in *.
    set (A := 2 ^ Zpos q) in *. set (B := 2 ^ (Zneg q + 200)) in *.
    split; nia.
Qed.

Lemma pow2Q_Z n : 0 <= n -> (2 ^ n == inject_Z (2 ^ n))%Q.
Proof. intros Hn. rewrite Zpower_Qpower by exact Hn. reflexivity. Qed.

Lemma to_Q_scaled x :
  match x with S754_finite _ _ e => -200 <= e | _ => True end ->
  (F32.to_Q x * inject_Z (2 ^ 200) == inject_Z (scaled x))%Q.
Proof.
  destruct x as [s|s| |s m e]; intros He; cbn [F32.to_Q scaled];
    try (rewrite Qmult_0_l; reflexivity).
  rewrite inject_Z_mult, <- (pow2Q_Z 200) by lia.
  rewrite <- (pow2Q_Z (e + 200)) by lia.
  rewrite Qpower_plus by discriminate.
  ring.
Qed.

Lemma digits2_pos_le p k : 0 <= k -> Zpos p < 2 ^ k -> Zpos (digits2_pos p) <= k.
Proof.
  intros Hk Hp. destruct (digits2_pos_bounds p) as [Hlo _].
  destruct (Z_le_gt_dec (Zpos (digits2_pos p)) k) as [|Hgt]; [assumption|].
  exfalso.
  assert (2 ^ k <= 2 ^ (Zpos (digits2_pos p) - 1)) by (apply Z.pow_le_mono_r; lia).
  lia.
Qed.

(** The product [a * 255.9f] of line 103, for a clamped alpha: the
    rounded product is within [2^-16] of the exact one. *)
Lemma mul_c2559_scaled m e :
  Zpos m < 2 ^ 24 -> -149 <= e ->
  (e <= -24 \/ (e = -23 /\ Zpos m <= 2 ^ 23)) ->
  let v := F32.mul (S754_finite false m e) c255_9 in
  (v = S754_zero false \/
   exists p e2, v = S754_finite false p e2 /\ -200 <= e2) /\
  scaled v - 2 ^ 184 <= Zpos m * 16770662 * 2 ^ (e + 184)
  /\ Zpos m * 16770662 * 2 ^ (e + 184) <= scaled v + 2 ^ 184.
Proof.
  intros Hm He Hcase v.
  assert (Hv : v = binary_round_aux 24 128 false (Zpos (m * 16770662)) (e + -16) loc_Exact)
    by reflexivity.
  set (M := (m * 16770662)%positive) in *.
  set (E := e + -16) in *.
  assert (HM : Zpos M = Zpos m * 16770662) by reflexivity.
  assert (Hd : Zpos (digits2_pos M) + E - 24 <= -16).
  { destruct Hcase as [Hc | [Hc Hm']].
    - assert (Zpos (digits2_pos M) <= 48); [|unfold E; lia].
      apply digits2_pos_le; [lia|]. rewrite HM.
      change (2 ^ 48) with (2 ^ 24 * 16777216).
      apply Z.le_lt_trans with (2 ^ 24 * 16770662); [|lia].
      apply Z.mul_le_mono_nonneg_r; lia.
    - assert (Zpos (digits2_pos M) <= 47); [|unfold E; lia].
      apply digits2_pos_le; [lia|]. rewrite HM.
      change (2 ^ 47) with (2 ^ 23 * 16777216).
      apply Z.le_lt_trans with (2 ^ 23 * 16770662); [|lia].
      apply Z.mul_le_mono_nonneg_r; lia. }
  assert (Hfexp : fexp 24 128 (Zpos (digits2_pos M) + E)
                  = Z.max (Zpos (digits2_pos M) + E - 24) (-149)) by reflexivity.
  assert (HE184 : E + 200 = e + 184) by (unfold E; lia).
  destruct (binary_round_aux_shape M E) as [[Hle Hr] | [Hlt (m2 & Hm2 & Hr)]].
  - rewrite Hfexp. lia.
  - unfold E. lia.
  - rewrite <- Hv in Hr. rewrite Hr. split.
    + right. exists M, E. split; [reflexivity | unfold E; lia].
    + cbn [scaled cond_Zopp]. rewrite HE184, HM.
      assert (0 < 2 ^ 184) by (apply Z.pow_pos_nonneg; lia). lia.
  - rewrite <- Hv in Hr. rewrite Hfexp in Hlt, Hm2, Hr.
    set (e1 := Z.max (Zpos (digits2_pos M) + E - 24) (-149)) in *.
    assert (He1 : -149 <= e1 <= -16) by (unfold e1; lia).
    assert (Hn : 0 < 2 ^ (e1 - E)) by (apply Z.pow_pos_nonneg; lia).
    assert (HB : 0 < 2 ^ (E + 200)) by (apply Z.pow_pos_nonneg; unfold E; lia).
    assert (Hsplit : 2 ^ (e1 + 200) = 2 ^ (e1 - E) * 2 ^ (E + 200)).
    { rewrite <- Z.pow_add_r by (unfold E; lia). f_equal. lia. }
    assert (Hle184 : 2 ^ (e1 + 200) <= 2 ^ 184) by (apply Z.pow_le_mono_r; lia).
    pose proof (Z.mul_div_le (Zpos M) (2 ^ (e1 - E)) Hn) as Hlo.
    pose proof (Z.mul_succ_div_gt (Zpos M) (2 ^ (e1 - E)) Hn) as Hhi.
    rewrite <- HE184, <- HM.
    set (D := Zpos M / 2 ^ (e1 - E)) in *.
    set (A := 2 ^ (e1 - E)) in *. set (B := 2 ^ (E + 200)) in *.
    destruct Hr as [[Hz Hr] | (p & e2 & Hr & He2 & Hp)].
    + rewrite Hr. split; [left; reflexivity|]. cbn [scaled]. nia.
    + rewrite Hr. split.
      * right. exists p, e2. split; [reflexivity | lia].
      * cbn [scaled cond_Zopp].
        assert (Hs2 : 2 ^ (e2 + 200) = 2 ^ (e2 - e1) * 2 ^ (e1 + 200)).
        { rewrite <- Z.pow_add_r by lia. f_equal. lia. }
        rewrite Hs2, Z.mul_assoc, Hp, Hsplit. nia.
Qed.

Lemma canonical32_fine x : canonical32 x -> fine x.
Proof. destruct x; cbn; intros; try exact I; lia. Qed.

Lemma of_bits_fine w : fine (F32.of_bits w).
Proof. apply canonical32_fine, of_bits_canonical. Qed.

Lemma to_Q_S200 x : fine x -> (F32.to_Q x * S200 == inject_Z (scaled x))%Q.
Proof. exact (to_Q_scaled x). Qed.

Lemma S200_Z : S200 = inject_Z (2 ^ 200).
Proof. reflexivity. Qed.

(** Comparisons of values read off their scaled integers. *)
Lemma within_scaled (den : positive) x y :
  fine x -> fine y ->
  Zpos den * (scaled x - scaled y) <= 2 ^ 200 ->
  Zpos den * (scaled y - scaled x) <= 2 ^ 200 ->
  within (1 # den) x y.
Proof.
  intros Hx Hy H1 H2. unfold within. apply Qabs_Qle_condition.
  pose proof (to_Q_S200 x Hx) as Ex. pose proof (to_Q_S200 y Hy) as Ey.
  rewrite Zle_Qle in H1, H2.
  rewrite inject_Z_mult, <- S200_Z in H1, H2.
  unfold Zminus in H1, H2. rewrite inject_Z_plus, inject_Z_opp in H1, H2.
  rewrite <- Ex, <- Ey in H1, H2.
  assert (Hs : (0 < S200)%Q) by reflexivity.
  assert (Hd : (0 < inject_Z (Zpos den))%Q) by reflexivity.
  set (qx := F32.to_Q x) in *. set (qy := F32.to_Q y) in *.
  assert (E : (1 # den == / inject_Z (Zpos den))%Q) by reflexivity.
  rewrite E. set (d := inject_Z (Zpos den)) in *.
  assert (H1' : (d * (qx - qy) <= 1)%Q).
  { apply Qmult_le_r with (z := S200); [exact Hs|]. 
    setoid_replace (d * (qx - qy) * S200)%Q with (d * (qx * S200 + - (qy * S200)))%Q by ring.
    rewrite Qmult_1_l. exact H1. }
  assert (H2' : (d * (qy - qx) <= 1)%Q).
  { apply Qmult_le_r with (z := S200); [exact Hs|]. 
    setoid_replace (d * (qy - qx) * S200)%Q with (d * (qy * S200 + - (qx * S200)))%Q by ring.
    rewrite Qmult_1_l. exact H2. }
  assert (Hinv : (/ d * d == 1)%Q) by (rewrite Qmult_comm; apply Qmult_inv_r; apply Qnot_eq_sym, Qlt_not_eq; exact Hd).
  assert (Hid : (0 < / d)%Q) by (apply Qinv_lt_0_compat; exact Hd).
  split.
  - apply Qmult_le_l with (z := d); [exact Hd|].
    setoid_replace (d * - / d)%Q with (- (/ d * d))%Q by ring. rewrite Hinv.
    setoid_replace (d * (qx - qy))%Q with (- (d * (qy - qx)))%Q by ring.
    apply Qopp_le_compat. exact H2'.
  - apply Qmult_le_l with (z := d); [exact Hd|].
    setoid_replace (d * / d)%Q with (/ d * d)%Q by ring. rewrite Hinv. exact H1'.
Qed.

Lemma in_unit_scaled x : fine x -> in_unit x -> 0 <= scaled x <= 2 ^ 200.
Proof.
  intros Hf [_ [H0 H1]]. pose proof (to_Q_S200 x Hf) as Ex.
  rewrite !Zle_Qle, <- S200_Z, <- Ex. unfold S200 in *.
  set (q := F32.to_Q x) in *. change (inject_Z 0) with 0%Q. split; lra.
Qed.

Lemma identity_curve_scaled f x :
  identity_curve f -> fine x -> in_unit x ->
  0 <= f x <= 65535
  /\ 131070 * scaled x - 2 * 2 ^ 200 < 2 * f x * 2 ^ 200
  /\ 2 * f x * 2 ^ 200 <= 131070 * scaled x + 2 ^ 200.
Proof.
  intros Hid Hf Hu. destruct (Hid x Hu) as (Hr & Hlo & Hhi).
  pose proof (to_Q_S200 x Hf) as Ex.
  split; [exact Hr|].
  rewrite Zlt_Qlt, Zle_Qle.
  unfold Zminus. rewrite !inject_Z_plus, !inject_Z_mult, inject_Z_opp, !inject_Z_mult.
  rewrite <- S200_Z, <- Ex. unfold S200 in *.
  set (q := F32.to_Q x) in *. set (R := inject_Z (f x)) in *.
  change (inject_Z 131070) with (131070 # 1)%Q. change (inject_Z 2) with (2 # 1)%Q.
  split; lra.
Qed.

(** On a value of [0,1] the clamp changes nothing but the sign of zero. *)
Lemma clamp01_unit x :
  canonical32 x -> in_unit x -> scaled (clamp01 x) = scaled x.
Proof.
  intros Hc Hu. pose proof (in_unit_scaled x (canonical32_fine x Hc) Hu) as Hs.
  destruct Hu as [Hfin _].
  destruct x as [s | s | | s m e]; try discriminate Hfin.
  - destruct s; reflexivity.
  - cbn [canonical32] in Hc. destruct Hc as (Hm & He & Hn).
    cbn [scaled] in Hs.
    assert (Hp : 0 < 2 ^ (e + 200)) by (apply Z.pow_pos_nonneg; lia).
    destruct s; cbn [cond_Zopp] in Hs; [nia|].
    unfold clamp01, F32.min, F32.max, F32.ltb, SFltb.
    cbn [SFcompare F32.one].
    destruct (e ?= -23) eqn:Hcmp.
    + apply Z.compare_eq in Hcmp. subst e.
      destruct (Pos.compare_cont Eq m 8388608) eqn:Hm2; cbn.
      * apply (Pos.compare_eq m 8388608) in Hm2. subst m. reflexivity.
      * reflexivity.
      * exfalso. assert (Hgt := proj1 (Pos.compare_gt_iff m 8388608) Hm2).
        clear Hm2. apply Pos2Z.pos_lt_pos in Hgt.
        change (-23 + 200) with 177 in Hs.
        change (2 ^ 200) with (8388608 * 2 ^ 177) in Hs.
        assert (0 < 2 ^ 177) by (apply Z.pow_pos_nonneg; lia). nia.
    + reflexivity.
    + exfalso. rewrite Z.compare_gt_iff in Hcmp.
      assert (Hm23 : 2 ^ 23 <= Zpos m) by lia.
      assert (Hle : 2 ^ 178 <= 2 ^ (e + 200)) by (apply Z.pow_le_mono_r; lia).
      change (2 ^ 200) with (2 ^ 22 * 2 ^ 178) in Hs.
      assert (0 < 2 ^ 178) by (apply Z.pow_pos_nonneg; lia).
      change (2 ^ 23) with 8388608 in Hm23. change (2 ^ 22) with 4194304 in Hs.
      nia.
Qed.

Lemma alpha8_bounds x :
  canonical32 x ->
  0 <= alpha8 x <= 255
  /\ alpha8 x * 2 ^ 216 - 2 ^ 200 <= scaled (clamp01 x) * 16770662
  /\ scaled (clamp01 x) * 16770662 < (alpha8 x + 1) * 2 ^ 216 + 2 ^ 200
  /\ alpha8 x * 2 ^ 200 <= scaled (F32.mul (clamp01 x) c255_9)
  /\ scaled (F32.mul (clamp01 x) c255_9) < (alpha8 x + 1) * 2 ^ 200.
Proof.
  intros Hc. unfold alpha8.
  destruct (clamp01_cases x Hc) as [Hx | (m & e & Hx & Hm & He & Hcase)]; rewrite Hx.
  - cbn. lia.
  - destruct (mul_c2559_scaled m e Hm He Hcase) as (Hshape & Hlo & Hhi).
    set (v := F32.mul (S754_finite false m e) c255_9) in *.
    assert (H184 : 0 < 2 ^ (e + 184)) by (apply Z.pow_pos_nonneg; lia).
    assert (Hsx : Zpos m * 2 ^ (e + 200) = Zpos m * 2 ^ (e + 184) * 2 ^ 16).
    { rewrite <- Z.mul_assoc, <- Z.pow_add_r by lia. do 2 f_equal. lia. }
    assert (Hub : Zpos m * 2 ^ (e + 184) <= 2 ^ 184).
    { destruct Hcase as [Hc1 | [Hc1 Hc2]].
      - assert (2 ^ (e + 184) <= 2 ^ 160) by (apply Z.pow_le_mono_r; lia).
        change (2 ^ 184) with (2 ^ 24 * 2 ^ 160).
        assert (0 < 2 ^ 160) by (apply Z.pow_pos_nonneg; lia). nia.
      - subst e. change (-23 + 184) with 161. change (2 ^ 184) with (2 ^ 23 * 2 ^ 161).
        apply Z.mul_le_mono_nonneg_r; [|exact Hc2]. apply Z.pow_nonneg. lia. }
    assert (Hfl : F32.to_Z v * 2 ^ 200 <= scaled v /\ scaled v < (F32.to_Z v + 1) * 2 ^ 200).
    { destruct Hshape as [Hv | (p & e2 & Hv & He2)]; rewrite Hv.
      - cbn. lia.
      - cbn [scaled cond_Zopp]. apply to_Z_scaled. exact He2. }
    destruct Hfl as [Hf1 Hf2].
    assert (HV0 : 0 <= scaled v).
    { destruct Hshape as [Hv | (p & e2 & Hv & He2)]; rewrite Hv; cbn [scaled cond_Zopp].
      - lia.
      - assert (0 < 2 ^ (e2 + 200)) by (apply Z.pow_pos_nonneg; lia). nia. }
    cbn [scaled cond_Zopp]. rewrite Hsx.
    assert (HXm : Zpos m * 16770662 * 2 ^ (e + 184)
                  = 16770662 * (Zpos m * 2 ^ (e + 184))) by ring.
    rewrite HXm in Hlo, Hhi.
    set (N := F32.to_Z v) in *. set (X := Zpos m * 2 ^ (e + 184)) in *.
    set (V := scaled v) in *.
    assert (HX0 : 0 <= X) by (unfold X; nia).
    lia.
Qed.

(** *** Checks over the 256 bytes *)

Lemma all_below_spec n f :
  all_below n f = true -> forall z, 0 <= z < Z.of_nat n -> f z = true.
Proof.
  unfold all_below. rewrite forallb_forall. intros H z Hz. apply H.
  apply in_map_iff. exists (Z.to_nat z). split; [lia|].
  apply in_seq. lia.
Qed.

Lemma color_table : all_below 256 color_ok = true.
Proof. vm_compute. reflexivity. Qed.

Lemma alpha_table : all_below 256 alpha_ok = true.
Proof. vm_compute. reflexivity. Qed.

Lemma alpha_inv_table : all_below 256 alpha_inv_ok = true.
Proof. vm_compute. reflexivity. Qed.

Lemma decoded_fine v : fine (decoded v).
Proof. apply of_bits_fine. Qed.

Lemma decoded_inv_fine v : fine (decoded_inv v).
Proof. apply of_bits_fine. Qed.

Lemma shift8_byte R :
  0 <= R <= 65535 ->
  let b := uchar (Z.shiftr R 8) in
  0 <= b <= 255 /\ 256 * b <= R <= 256 * b + 255.
Proof.
  intros HR b. unfold b, uchar. rewrite Z.shiftr_div_pow2 by lia.
  change (2 ^ 8) with 256.
  assert (H : 0 <= R / 256 < 256).
  { split; [apply Z.div_pos; lia | apply Z.div_lt_upper_bound; lia]. }
  rewrite Z.mod_small by exact H.
  pose proof (Z.mul_div_le R 256 ltac:(lia)).
  pose proof (Z.mul_succ_div_gt R 256 ltac:(lia)). lia.
Qed.

(** A color channel of [0,1] comes back within one step. *)
Lemma color_channel_close f x :
  identity_curve f -> canonical32 x -> in_unit x ->
  within step (decoded (uchar (Z.shiftr (f x) 8))) x.
Proof.
  intros Hid Hc Hu.
  pose proof (canonical32_fine x Hc) as Hf.
  destruct (identity_curve_scaled f x Hid Hf Hu) as (HR & Hlo & Hhi).
  pose proof (in_unit_scaled x Hf Hu) as Hs.
  destruct (shift8_byte (f x) HR) as [Hb Hq].
  set (b := uchar (Z.shiftr (f x) 8)) in *.
  pose proof (all_below_spec 256 color_ok color_table b ltac:(lia)) as Hok.
  unfold color_ok in Hok. cbv zeta in Hok.
  apply andb_true_iff in Hok. destruct Hok as [H1 H2].
  apply Z.leb_le in H1. apply orb_true_iff in H2.
  rewrite !Z.leb_le in H2.
  unfold step. apply within_scaled; [apply decoded_fine | exact Hf | |].
  - set (Ds := scaled (decoded b)) in *. set (As := scaled x) in *.
    set (R := f x) in *. nia.
  - set (Ds := scaled (decoded b)) in *. set (As := scaled x) in *.
    set (R := f x) in *. destruct H2 as [H2 | H2]; nia.
Qed.

(** The alpha of [0,1] comes back within one step, stored directly or
    inverted. *)
Lemma alpha_close x :
  canonical32 x -> in_unit x -> within step (decoded (alpha8 x)) x.
Proof.
  intros Hc Hu. pose proof (canonical32_fine x Hc) as Hf.
  destruct (alpha8_bounds x Hc) as (HN & Hlo & Hhi & _).
  rewrite (clamp01_unit x Hc Hu) in Hlo, Hhi.
  pose proof (all_below_spec 256 alpha_ok alpha_table (alpha8 x) ltac:(lia)) as Hok.
  unfold alpha_ok in Hok. cbv zeta in Hok.
  apply andb_true_iff in Hok. destruct Hok as [H1 H2].
  apply Z.leb_le in H1, H2.
  unfold step. apply within_scaled; [apply decoded_fine | exact Hf | |].
  - set (Ds := scaled (decoded (alpha8 x))) in *. set (As := scaled x) in *.
    set (N := alpha8 x) in *. lia.
  - set (Ds := scaled (decoded (alpha8 x))) in *. set (As := scaled x) in *.
    set (N := alpha8 x) in *. lia.
Qed.

Lemma alpha_inv_close x :
  canonical32 x -> in_unit x ->
  within step (decoded_inv (255 - alpha8 x)) x.
Proof.
  intros Hc Hu. pose proof (canonical32_fine x Hc) as Hf.
  destruct (alpha8_bounds x Hc) as (HN & Hlo & Hhi & _).
  rewrite (clamp01_unit x Hc Hu) in Hlo, Hhi.
  pose proof (all_below_spec 256 alpha_inv_ok alpha_inv_table (alpha8 x) ltac:(lia)) as Hok.
  unfold alpha_inv_ok in Hok. cbv zeta in Hok.
  apply andb_true_iff in Hok. destruct Hok as [H1 H2].
  apply Z.leb_le in H1, H2.
  unfold step. apply within_scaled; [apply decoded_inv_fine | exact Hf | |].
  - set (Ds := scaled (decoded_inv (255 - alpha8 x))) in *. set (As := scaled x) in *.
    set (N := alpha8 x) in *. lia.
  - set (Ds := scaled (decoded_inv (255 - alpha8 x))) in *. set (As := scaled x) in *.
    set (N := alpha8 x) in *. lia.
Qed.

(** *** Layout of a pixel *)

Section Structure.
Variable EncodeYUV : Z -> Z -> ColorReal.
Variable set_yuv : Color -> ColorReal -> ColorReal -> ColorReal -> Color.

(** Where the encoder leaves the color and alpha bytes of an RGB or BGR
    pixel. *)
Lemma encode_rgb_bytes color pf m out gamma :
  FLAGS pf PF_RAW_COLOR = false -> FLAGS pf PF_GRAY = false ->
  let enc := fst (Color2PixelFormat EncodeYUV color pf (m, out) gamma) in
  enc (out + red_offset pf)
    = uchar (Z.shiftr (fst (fst (encode_rgb color pf gamma))) 8)
  /\ enc (out + green_offset pf)
    = uchar (Z.shiftr (snd (fst (encode_rgb color pf gamma))) 8)
  /\ enc (out + blue_offset pf)
    = uchar (Z.shiftr (snd (encode_rgb color pf gamma)) 8)
  /\ (stores_alpha pf = true ->
      enc (out + alpha_offset pf) = encode_alpha color pf).
Proof.
  intros Hraw Hgray. cbv zeta.
  unfold Color2PixelFormat, red_offset, green_offset, blue_offset,
    alpha_offset, before_size, color_size, stores_alpha.
  rewrite Hraw, Hgray.
  destruct (encode_rgb color pf gamma) as [[ri gi] bi].
  set (ac := encode_alpha color pf).
  layout_cases pf;
    cbn [negb andb orb put skip fst snd]; unfold store; store_eqb;
    (split; [reflexivity | split; [reflexivity | split; [reflexivity |]]]);
    intros Hsa; try discriminate Hsa; reflexivity.
Qed.

(** What the decoder builds from the bytes of an RGB or BGR pixel. *)
Lemma decode_rgb_shape c0 pf m in_ :
  FLAGS pf PF_RAW_COLOR = false -> FLAGS pf PF_GRAY = false ->
  fst (PixelFormat2Color set_yuv c0 pf m in_) =
  finish pf
    (mkColor (F32.to_bits (unit_of_byte (m (in_ + red_offset pf))))
             (F32.to_bits (unit_of_byte (m (in_ + green_offset pf))))
             (F32.to_bits (unit_of_byte (m (in_ + blue_offset pf))))
             (if stores_alpha pf
              then F32.to_bits (unit_of_byte (m (in_ + alpha_offset pf)))
              else a_ c0)).
Proof.
  intros Hraw Hgray.
  unfold PixelFormat2Color, finish, red_offset, green_offset, blue_offset,
    alpha_offset, before_size, color_size, stores_alpha.
  rewrite Hraw, Hgray.
  set (inv := FLAGS pf PF_A_INV). set (pre := FLAGS pf PF_A_PREMULT).
  layout_cases pf;
    cbn [negb andb orb read_a next fst snd set_r set_g set_b set_a
         r_ g_ b_ a_]; unfold read_channel; norm_addr m in_; reflexivity.
Qed.
End Structure.

(** *** Flags as bits *)

Lemma FLAGS_GRAY x : FLAGS x PF_GRAY = Z.testbit x 0.
Proof. apply (FLAGS_bit x 0). lia. Qed.
Lemma FLAGS_A x : FLAGS x PF_A = Z.testbit x 1.
Proof. apply (FLAGS_bit x 1). lia. Qed.
Lemma FLAGS_Z x : FLAGS x PF_Z = Z.testbit x 2.
Proof. apply (FLAGS_bit x 2). lia. Qed.
Lemma FLAGS_BGR x : FLAGS x PF_BGR = Z.testbit x 3.
Proof. apply (FLAGS_bit x 3). lia. Qed.
Lemma FLAGS_A_START x : FLAGS x PF_A_START = Z.testbit x 4.
Proof. apply (FLAGS_bit x 4). lia. Qed.
Lemma FLAGS_Z_START x : FLAGS x PF_Z_START = Z.testbit x 5.
Proof. apply (FLAGS_bit x 5). lia. Qed.
Lemma FLAGS_ZA x : FLAGS x PF_ZA = Z.testbit x 6.
Proof. apply (FLAGS_bit x 6). lia. Qed.
Lemma FLAGS_A_INV x : FLAGS x PF_A_INV = Z.testbit x 7.
Proof. apply (FLAGS_bit x 7). lia. Qed.
Lemma FLAGS_A_PREMULT x : FLAGS x PF_A_PREMULT = Z.testbit x 10.
Proof. apply (FLAGS_bit x 10). lia. Qed.

Create Rewrite HintDb flags.
#[export] Hint Rewrite FLAGS_RAW FLAGS_GRAY FLAGS_A FLAGS_Z FLAGS_BGR
  FLAGS_A_START FLAGS_Z_START FLAGS_ZA FLAGS_A_INV FLAGS_A_PREMULT : flags.

Lemma testbit_or_bit x k i :
  0 <= k -> 0 <= i ->
  Z.testbit (pf_or x (Z.shiftl 1 k)) i = Z.testbit x i || (i =? k).
Proof.
  intros Hk Hi. unfold pf_or. rewrite Z.lor_spec, Z.shiftl_1_l.
  rewrite Z.pow2_bits_eqb by exact Hk. rewrite (Z.eqb_sym k i). reflexivity.
Qed.

(** C6: [channels] never decreases when the alpha bit or the depth bit is
    added to a descriptor, and a descriptor that tests as raw color has
    [sizeof(Color)] channels whatever its other bits are. *)
Theorem channels_monotonic :
  forall F : PixelFormat,
    channels F <= channels (pf_or F PF_A)
    /\ channels F <= channels (pf_or F PF_Z)
    /\ (forall G : PixelFormat,
          channels (pf_or G PF_RAW_COLOR) = sizeof_Color)
    /\ (FLAGS F PF_RAW_COLOR = true -> channels F = sizeof_Color).
Proof.
  intros F. unfold channels.
  autorewrite with flags.
  unfold PF_A, PF_Z. rewrite !testbit_or_bit by lia.
  cbn [Z.eqb orb]. rewrite !orb_false_r, !orb_true_r.
  unfold sizeof_Color.
  repeat split.
  - destruct (Z.testbit F 9), (Z.testbit F 1), (Z.testbit F 0), (Z.testbit F 2);
      cbn; lia.
  - destruct (Z.testbit F 9), (Z.testbit F 1), (Z.testbit F 0), (Z.testbit F 2);
      cbn; lia.
  - intros G. autorewrite with flags.
    change PF_RAW_COLOR with (pf_or (Z.shiftl 1 9) (Z.shiftl 1 1)).
    unfold pf_or at 1 3. rewrite !Z.lor_assoc.
    fold (pf_or G (Z.shiftl 1 9)). fold (pf_or (pf_or G (Z.shiftl 1 9)) (Z.shiftl 1 1)).
    rewrite !testbit_or_bit by lia. cbn [Z.eqb orb].
    rewrite !orb_true_r. reflexivity.
  - intros H. rewrite H. reflexivity.
Qed.

(** *** Cursors *)

Section Cursors.
Variable EncodeYUV : Z -> Z -> ColorReal.
Variable set_yuv : Color -> ColorReal -> ColorReal -> ColorReal -> Color.

Lemma Color2PixelFormat_advance color pf out gamma :
  snd (Color2PixelFormat EncodeYUV color pf out gamma)
  = snd out + pixel_size pf.
Proof.
  unfold Color2PixelFormat, pixel_size.
  destruct (FLAGS pf PF_RAW_COLOR); [reflexivity|].
  destruct (encode_rgb color pf gamma) as [[ri gi] bi].
  destruct (FLAGS pf PF_GRAY); layout_cases pf;
    cbn [negb andb orb put skip fst snd]; lia.
Qed.

Lemma PixelFormat2Color_advance color pf m in_ :
  snd (PixelFormat2Color set_yuv color pf m in_) = in_ + pixel_size pf.
Proof.
  unfold PixelFormat2Color, pixel_size.
  destruct (FLAGS pf PF_RAW_COLOR); [reflexivity|].
  destruct (FLAGS pf PF_GRAY); layout_cases pf;
    cbn [negb andb orb read_a next fst snd]; lia.
Qed.

Lemma convert_color_format_advance clamped src : forall dest pf gamma,
  snd (convert_color_format EncodeYUV clamped dest src pf gamma)
  = snd dest + Z.of_nat (List.length src) * pixel_size pf.
Proof.
  induction src as [|c src IH]; intros dest pf gamma.
  - cbn. lia.
  - cbn [convert_color_format List.length]. rewrite IH, Color2PixelFormat_advance.
    lia.
Qed.

Lemma decode_pixels_advance w : forall color pf m in_,
  decode_pixels set_yuv w color pf m in_
  = in_ + Z.of_nat w * pixel_size pf.
Proof.
  induction w as [|w IH]; intros color pf m in_.
  - cbn. lia.
  - cbn [decode_pixels]. rewrite IH, PixelFormat2Color_advance. lia.
Qed.

(** C8: under every descriptor the encoder and the decoder advance their
    cursors by the same number of bytes, for one pixel and hence for a
    stream of pixels written by [convert_color_format]. *)
Theorem encode_decode_lockstep :
  forall (pf : PixelFormat) color c0 m out gamma m' in_,
    snd (Color2PixelFormat EncodeYUV color pf (m, out) gamma) - out
    = snd (PixelFormat2Color set_yuv c0 pf m' in_) - in_
    /\ forall clamped src,
        snd (convert_color_format EncodeYUV clamped (m, out) src pf gamma)
          - out
        = decode_pixels set_yuv (List.length src) c0 pf m' in_ - in_.
Proof.
  intros pf color c0 m out gamma m' in_. split.
  - rewrite Color2PixelFormat_advance, PixelFormat2Color_advance.
    cbn [snd]. lia.
  - intros clamped src.
    rewrite convert_color_format_advance, decode_pixels_advance.
    cbn [snd]. lia.
Qed.

(** C4 (the code departs from the claim): under [PF_A_START] alone, an
    alpha placement bit without the alpha-present bit, the encoder writes
    the alpha byte and advances by 4 bytes while [channels] counts 3; in
    general it advances by [pixel_size], which counts a placement bit as
    a byte. *)
Theorem encode_advance_vs_channels :
  forall color m out gamma,
    snd (Color2PixelFormat EncodeYUV color PF_A_START (m, out) gamma)
      = out + 4
    /\ fst (Color2PixelFormat EncodeYUV color PF_A_START (m, out) gamma) out
      = encode_alpha color PF_A_START
    /\ channels PF_A_START = 3
    /\ snd (Color2PixelFormat EncodeYUV color PF_Z_START (m, out) gamma)
      = out + 4
    /\ channels PF_Z_START = 3.
Proof.
  intros color m out gamma.
  rewrite !Color2PixelFormat_advance. cbn [snd].
  split; [reflexivity|]. split; [|split; [reflexivity | split; reflexivity]].
  unfold Color2PixelFormat.
  change (FLAGS PF_A_START PF_RAW_COLOR) with false.
  change (FLAGS PF_A_START PF_ZA) with false.
  change (FLAGS PF_A_START PF_A_START) with true.
  change (FLAGS PF_A_START PF_Z_START) with false.
  change (FLAGS PF_A_START PF_GRAY) with false.
  change (FLAGS PF_A_START PF_BGR) with false.
  change (FLAGS PF_A_START PF_A) with false.
  change (FLAGS PF_A_START PF_Z) with false.
  destruct (encode_rgb color PF_A_START gamma) as [[ri gi] bi].
  cbn [negb andb orb put skip fst snd]. unfold store. store_eqb. reflexivity.
Qed.

(** The encoder advances by [channels] exactly when every placement bit
    that is set comes with its presence bit. *)
Lemma pixel_size_channels pf :
  FLAGS pf PF_RAW_COLOR = false ->
  pixel_size pf - channels pf
  = (if FLAGS pf PF_A_START && negb (FLAGS pf PF_A) then 1 else 0)
    + (if FLAGS pf PF_Z_START && negb (FLAGS pf PF_Z) then 1 else 0).
Proof.
  intros Hraw. unfold pixel_size, channels. rewrite Hraw.
  destruct (FLAGS pf PF_GRAY); layout_cases pf; cbn; lia.
Qed.

End Cursors.

(** *** The raw-color test *)

Lemma FLAGS_clearbit9 pf :
  FLAGS pf PF_A = false ->
  FLAGS (Z.clearbit pf 9) PF_RAW_COLOR = FLAGS pf PF_RAW_COLOR
  /\ FLAGS (Z.clearbit pf 9) PF_GRAY = FLAGS pf PF_GRAY
  /\ FLAGS (Z.clearbit pf 9) PF_A = FLAGS pf PF_A
  /\ FLAGS (Z.clearbit pf 9) PF_Z = FLAGS pf PF_Z
  /\ FLAGS (Z.clearbit pf 9) PF_BGR = FLAGS pf PF_BGR
  /\ FLAGS (Z.clearbit pf 9) PF_A_START = FLAGS pf PF_A_START
  /\ FLAGS (Z.clearbit pf 9) PF_Z_START = FLAGS pf PF_Z_START
  /\ FLAGS (Z.clearbit pf 9) PF_ZA = FLAGS pf PF_ZA
  /\ FLAGS (Z.clearbit pf 9) PF_A_INV = FLAGS pf PF_A_INV
  /\ FLAGS (Z.clearbit pf 9) PF_A_PREMULT = FLAGS pf PF_A_PREMULT.
Proof.
  autorewrite with flags. intros HA.
  rewrite Z.clearbit_eq by lia. rewrite !Z.clearbit_neq by lia.
  rewrite HA, !andb_false_r. repeat split; reflexivity.
Qed.

(** C9: [PF_RAW_COLOR] is bit 9 together with the alpha bit, the raw test
    needs both, and a descriptor without the alpha bit is handled by
    [channels], the encoder and the decoder as the same descriptor with
    bit 9 cleared: an ordinary layout. *)
Theorem raw_color_needs_alpha_bit :
  PF_RAW_COLOR = pf_or (Z.shiftl 1 9) PF_A
  /\ (forall pf, FLAGS pf PF_RAW_COLOR = Z.testbit pf 9 && FLAGS pf PF_A)
  /\ (forall pf, FLAGS pf PF_A = false ->
        FLAGS pf PF_RAW_COLOR = false
        /\ channels pf = channels (Z.clearbit pf 9)
        /\ (forall EncodeYUV color out gamma,
              Color2PixelFormat EncodeYUV color pf out gamma
              = Color2PixelFormat EncodeYUV color (Z.clearbit pf 9) out gamma)
        /\ (forall set_yuv color m in_,
              PixelFormat2Color set_yuv color pf m in_
              = PixelFormat2Color set_yuv color (Z.clearbit pf 9) m in_))
  /\ channels (Z.shiftl 1 9) = 3.
Proof.
  split; [reflexivity|]. split.
  { intros pf. rewrite FLAGS_RAW, FLAGS_A. reflexivity. }
  split; [|reflexivity].
  intros pf HA.
  destruct (FLAGS_clearbit9 pf HA)
    as (Eraw & Egray & EA & EZ & Ebgr & Eas & Ezs & Eza & Einv & Epre).
  assert (Hraw : FLAGS pf PF_RAW_COLOR = false).
  { rewrite FLAGS_RAW, <- FLAGS_A, HA. apply andb_false_r. }
  split; [exact Hraw|]. split; [|split].
  - unfold channels. rewrite Eraw, Egray, EA, EZ. reflexivity.
  - intros EncodeYUV color out gamma.
    unfold Color2PixelFormat, encode_rgb, encode_alpha.
    rewrite Eraw, Egray, EA, EZ, Ebgr, Eas, Ezs, Eza, Einv, Epre.
    reflexivity.
  - intros set_yuv color m in_. unfold PixelFormat2Color.
    rewrite Eraw, Egray, EA, EZ, Ebgr, Eas, Ezs, Eza, Einv, Epre.
    reflexivity.
Qed.

(** *** Raw color *)

Lemma store_bytes_below l : forall m p q,
  q < p -> store_bytes m p l q = m q.
Proof.
  induction l as [|v l IH]; intros m p q Hq; cbn [store_bytes].
  - reflexivity.
  - rewrite IH by lia. unfold store.
    replace (q =? p) with false by (symmetry; apply Z.eqb_neq; lia).
    reflexivity.
Qed.

Lemma load_store_bytes l : forall m p,
  load_bytes (store_bytes m p l) p (List.length l) = l.
Proof.
  induction l as [|v l IH]; intros m p; cbn [store_bytes load_bytes List.length].
  - reflexivity.
  - rewrite IH. f_equal. rewrite store_bytes_below by lia.
    unfold store. rewrite Z.eqb_refl. reflexivity.
Qed.

Lemma bytes_word_bytes w : 0 <= w < 2 ^ 32 -> bytes_word (word_bytes w) = w.
Proof.
  intros Hw. unfold bytes_word, word_bytes. cbn [nth].
  change (2 ^ 8) with 256. change (2 ^ 16) with (256 * 256).
  change (2 ^ 24) with (256 * 256 * 256).
  change (2 ^ 32) with (256 * 256 * 256 * 256) in Hw.
  rewrite <- !Z.div_div by lia.
  set (w1 := w / 256). set (w2 := w1 / 256). set (w3 := w2 / 256).
  pose proof (Z.div_mod w 256 ltac:(lia)) as E0. fold w1 in E0.
  pose proof (Z.div_mod w1 256 ltac:(lia)) as E1. fold w2 in E1.
  pose proof (Z.div_mod w2 256 ltac:(lia)) as E2. fold w3 in E2.
  pose proof (Z.mod_pos_bound w 256 ltac:(lia)).
  pose proof (Z.mod_pos_bound w1 256 ltac:(lia)).
  pose proof (Z.mod_pos_bound w2 256 ltac:(lia)).
  assert (H3 : 0 <= w3 < 256) by lia.
  rewrite (Z.mod_small w3) by exact H3. lia.
Qed.

Lemma bytes_Color_bytes c : wf_Color c -> bytes_Color (Color_bytes c) = c.
Proof.
  intros (Hr & Hg & Hb & Ha). destruct c as [r g b a]. cbn [r_ g_ b_ a_] in *.
  unfold bytes_Color, Color_bytes. cbn [r_ g_ b_ a_].
  change (firstn 4 (word_bytes r ++ word_bytes g ++ word_bytes b ++ word_bytes a))
    with (word_bytes r).
  change (firstn 4 (skipn 4 (word_bytes r ++ word_bytes g ++ word_bytes b ++ word_bytes a)))
    with (word_bytes g).
  change (firstn 4 (skipn 8 (word_bytes r ++ word_bytes g ++ word_bytes b ++ word_bytes a)))
    with (word_bytes b).
  change (firstn 4 (skipn 12 (word_bytes r ++ word_bytes g ++ word_bytes b ++ word_bytes a)))
    with (word_bytes a).
  rewrite !bytes_word_bytes by assumption. reflexivity.
Qed.

Lemma Color_bytes_length c : List.length (Color_bytes c) = Z.to_nat sizeof_Color.
Proof. reflexivity. Qed.

Lemma Color2PixelFormat_raw EncodeYUV C pf out g :
  FLAGS pf PF_RAW_COLOR = true ->
  Color2PixelFormat EncodeYUV C pf out g
  = (store_bytes (fst out) (snd out) (Color_bytes C), snd out + sizeof_Color).
Proof. intros H. unfold Color2PixelFormat. rewrite H. reflexivity. Qed.

Lemma PixelFormat2Color_raw set_yuv c0 pf m in_ :
  FLAGS pf PF_RAW_COLOR = true ->
  PixelFormat2Color set_yuv c0 pf m in_
  = (bytes_Color (load_bytes m in_ (Z.to_nat sizeof_Color)),
     in_ + sizeof_Color).
Proof. intros H. unfold PixelFormat2Color. rewrite H. reflexivity. Qed.

(** C2: a color encoded under a descriptor that tests as raw color
    decodes to the very same color, bit for bit, and the gamma passed to
    the encoder has no effect on what it writes. *)
Theorem raw_color_roundtrip
  (EncodeYUV : Z -> Z -> ColorReal)
  (set_yuv : Color -> ColorReal -> ColorReal -> ColorReal -> Color)
  (C c0 : Color) (pf : PixelFormat) (g g' : Gamma) (m : memory) (out : Z)
  (Hraw : FLAGS pf PF_RAW_COLOR = true) (Hwf : wf_Color C) :
  PixelFormat2Color set_yuv c0 pf
    (fst (Color2PixelFormat EncodeYUV C pf (m, out) g)) out
  = (C, snd (Color2PixelFormat EncodeYUV C pf (m, out) g))
  /\ Color2PixelFormat EncodeYUV C pf (m, out) g
     = Color2PixelFormat EncodeYUV C pf (m, out) g'.
Proof.
  rewrite !(Color2PixelFormat_raw EncodeYUV C pf (m, out)) by exact Hraw.
  rewrite PixelFormat2Color_raw by exact Hraw. cbn [fst snd].
  split; [|reflexivity].
  rewrite <- (Color_bytes_length C), load_store_bytes.
  rewrite bytes_Color_bytes by exact Hwf. reflexivity.
Qed.

(** *** The identity gamma *)

Lemma identity_U16_curve : identity_curve identity_U16.
Proof.
  intros x [Hfin [H0 H1]]. unfold identity_U16. rewrite Hfin.
  set (q := F32.to_Q x) in *.
  assert (Hlo : 0 <= Qfloor (q * 65535)).
  { change 0 with (Qfloor 0). apply Qfloor_resp_le. lra. }
  assert (Hhi : Qfloor (q * 65535) <= 65535).
  { assert (H : Qfloor (q * 65535) <= Qfloor (inject_Z 65535)).
    { apply Qfloor_resp_le. change (inject_Z 65535) with 65535%Q. lra. }
    rewrite Qfloor_Z in H. exact H. }
  rewrite Z.min_r by exact Hhi. rewrite Z.max_r by exact Hlo.
  split; [lia|].
  pose proof (Qfloor_le (q * 65535)) as Hfl.
  pose proof (Qlt_floor (q * 65535)) as Hlt.
  rewrite inject_Z_plus in Hlt. change (inject_Z 1) with 1%Q in Hlt.
  set (R := inject_Z (Qfloor (q * 65535))) in *.
  clearbody R. split; lra.
Qed.

Lemma no_gamma_identity : identity_gamma no_gamma.
Proof.
  split; [|split]; exact identity_U16_curve.
Qed.

(** *** The alpha byte *)

Lemma encode_alpha_eq color pf :
  encode_alpha color pf
  = if FLAGS pf PF_A_INV then 255 - alpha8 (get_a color)
    else alpha8 (get_a color).
Proof.
  unfold encode_alpha. fold (clamp01 (get_a color)).
  fold (alpha8 (get_a color)).
  destruct (alpha8_bounds (get_a color) (of_bits_canonical _)) as (HN & _).
  unfold uchar. rewrite (Z.mod_small (alpha8 (get_a color))) by lia.
  destruct (FLAGS pf PF_A_INV); [|reflexivity].
  apply Z.mod_small. lia.
Qed.

(** *** Round trips *)

Lemma get_r_mk r g b a : get_r (mkColor r g b a) = F32.of_bits r.
Proof. reflexivity. Qed.
Lemma get_g_mk r g b a : get_g (mkColor r g b a) = F32.of_bits g.
Proof. reflexivity. Qed.
Lemma get_b_mk r g b a : get_b (mkColor r g b a) = F32.of_bits b.
Proof. reflexivity. Qed.
Lemma get_a_mk r g b a : get_a (mkColor r g b a) = F32.of_bits a.
Proof. reflexivity. Qed.

Lemma finish_straight F c :
  FLAGS F PF_A_PREMULT = false ->
  finish F c
  = mkColor (r_ c) (g_ c) (b_ c)
      (if FLAGS F PF_A_INV
       then F32.to_bits (F32.sub F32.one (F32.of_bits (a_ c)))
       else a_ c).
Proof.
  intros Hpre. unfold finish. rewrite Hpre.
  destruct (FLAGS F PF_A_INV); destruct c; reflexivity.
Qed.

Lemma spec_example_unit : unit_Color spec_example.
Proof.
  unfold unit_Color. split; [|split; [|split]]; unit_by_computation.
Qed.

(** *** Frame: the encoder writes inside its pixel only *)

Lemma store_bytes_above l : forall m p q,
  p + Z.of_nat (List.length l) <= q -> store_bytes m p l q = m q.
Proof.
  induction l as [|v l IH]; intros m p q Hq; cbn [store_bytes List.length] in *.
  - reflexivity.
  - rewrite IH by lia. unfold store.
    replace (q =? p) with false by (symmetry; apply Z.eqb_neq; lia).
    reflexivity.
Qed.

Lemma Color2PixelFormat_frame EncodeYUV color pf m out gamma p :
  p < out \/ out + pixel_size pf <= p ->
  fst (Color2PixelFormat EncodeYUV color pf (m, out) gamma) p = m p.
Proof.
  unfold Color2PixelFormat, pixel_size.
  destruct (FLAGS pf PF_RAW_COLOR).
  - cbn [fst snd]. intros [Hp | Hp].
    + apply store_bytes_below. exact Hp.
    + apply store_bytes_above. rewrite Color_bytes_length.
      unfold sizeof_Color in *. lia.
  - destruct (encode_rgb color pf gamma) as [[ri gi] bi].
    destruct (FLAGS pf PF_GRAY); layout_cases pf;
      cbn [negb andb orb put skip fst snd]; intros Hp; unfold store;
      store_eqb; reflexivity.
Qed.

Lemma identity_curve_ends f :
  identity_curve f -> f F32.one = 65535 /\ f F32.zero = 0.
Proof.
  intros Hid. split.
  - destruct (identity_curve_scaled f F32.one Hid) as (HR & Hlo & Hhi).
    + cbn. lia.
    + unit_by_computation.
    + change (scaled F32.one) with (2 ^ 200) in Hlo, Hhi. lia.
  - destruct (identity_curve_scaled f F32.zero Hid) as (HR & Hlo & Hhi).
    + exact I.
    + unit_by_computation.
    + change (scaled F32.zero) with 0 in Hlo, Hhi. lia.
Qed.

(** C7: the color (1, 0, 0, 0.5) encoded under [PF_A | PF_A_START] with an
    identity gamma takes exactly four bytes, alpha first: 127, 255, 0, 0;
    the 127 is 0.5 * 255.9 truncated. *)
Theorem encode_alpha_start_example
  (EncodeYUV : Z -> Z -> ColorReal) (gamma : Gamma) (m : memory) (out : Z)
  (Hgamma : identity_gamma gamma) :
  let C := mkColor (real 1 1) (real 0 1) (real 0 1) (real 1 2) in
  let enc :=
    Color2PixelFormat EncodeYUV C (pf_or PF_A PF_A_START) (m, out) gamma in
  snd enc = out + 4
  /\ map (fst enc) [out; out + 1; out + 2; out + 3] = [127; 255; 0; 0]
  /\ forall p, p < out \/ out + 4 <= p -> fst enc p = m p.
Proof.
  intros C enc. unfold enc.
  set (pf := pf_or PF_A PF_A_START).
  split; [|split].
  - rewrite Color2PixelFormat_advance. reflexivity.
  - destruct (encode_rgb_bytes EncodeYUV C pf m out gamma eq_refl eq_refl)
      as (Er & Eg & Eb & Ea).
    specialize (Ea eq_refl).
    change (red_offset pf) with 1 in Er. change (green_offset pf) with 2 in Eg.
    change (blue_offset pf) with 3 in Eb. change (alpha_offset pf) with 0 in Ea.
    rewrite Z.add_0_r in Ea.
    replace (out + 3) with (out + 3) by reflexivity.
    cbn [map]. rewrite Er, Eg, Eb, Ea.
    destruct Hgamma as (Hcr & Hcg & Hcb).
    destruct (identity_curve_ends _ Hcr) as [Hr1 _].
    destruct (identity_curve_ends _ Hcg) as [_ Hg0].
    destruct (identity_curve_ends _ Hcb) as [_ Hb0].
    unfold encode_rgb.
    change (FLAGS pf PF_A_PREMULT) with false. cbn [fst snd].
    change (get_r C) with F32.one. change (get_g C) with F32.zero.
    change (get_b C) with F32.zero.
    rewrite Hr1, Hg0, Hb0.
    replace (encode_alpha C pf) with 127 by (vm_compute; reflexivity).
    reflexivity.
  - intros p Hp. apply Color2PixelFormat_frame.
    change (pixel_size pf) with 4. exact Hp.
Qed.

Lemma encode_alpha_start_example_witness :
  let C := mkColor (real 1 1) (real 0 1) (real 0 1) (real 1 2) in
  let enc :=
    Color2PixelFormat EncodeYUV_luma C (pf_or PF_A PF_A_START) (mem0, 100)
      no_gamma in
  snd enc = 100 + 4
  /\ map (fst enc) [100; 100 + 1; 100 + 2; 100 + 3] = [127; 255; 0; 0]
  /\ forall p, p < 100 \/ 100 + 4 <= p -> fst enc p = mem0 p.
Proof.
  exact (encode_alpha_start_example EncodeYUV_luma no_gamma mem0 100
           no_gamma_identity).
Defined.

(** *** The alpha rule *)

Lemma Qfloor_unique (q : Q) (n : Z) :
  (inject_Z n <= q)%Q -> (q < inject_Z (n + 1))%Q -> Qfloor q = n.
Proof.
  intros Hlo Hhi.
  assert (H1 : n <= Qfloor q).
  { rewrite <- (Qfloor_Z n). apply Qfloor_resp_le. exact Hlo. }
  assert (H2 : Qfloor q < n + 1).
  { rewrite Zlt_Qlt. eapply Qle_lt_trans; [apply Qfloor_le | exact Hhi]. }
  lia.
Qed.

Lemma alpha8_fine x :
  canonical32 x -> fine (F32.mul (clamp01 x) c255_9).
Proof.
  intros Hc.
  destruct (clamp01_cases x Hc) as [Hx | (m & e & Hx & Hm & He & Hcase)];
    rewrite Hx.
  - exact I.
  - destruct (mul_c2559_scaled m e Hm He Hcase) as ([Hv | (p & e2 & Hv & He2)] & _);
      rewrite Hv; [exact I | exact He2].
Qed.

(** [alpha8] is the integer part of the single-precision product. *)
Lemma alpha8_floor x :
  canonical32 x ->
  alpha8 x = Qfloor (F32.to_Q (F32.mul (clamp01 x) c255_9)).
Proof.
  intros Hc. symmetry.
  destruct (alpha8_bounds x Hc) as (_ & _ & _ & Hlo & Hhi).
  pose proof (to_Q_S200 _ (alpha8_fine x Hc)) as Ev.
  set (v := F32.mul (clamp01 x) c255_9) in *.
  rewrite Zle_Qle in Hlo. rewrite Zlt_Qlt in Hhi.
  rewrite inject_Z_mult, <- S200_Z in Hlo, Hhi. rewrite <- Ev in Hlo, Hhi.
  assert (Hs : (0 < S200)%Q) by reflexivity.
  apply Qfloor_unique.
  - apply Qmult_le_r with (z := S200); assumption.
  - apply Qmult_lt_r with (z := S200); assumption.
Qed.

Lemma encode_alpha_byte EncodeYUV color pf m out gamma :
  FLAGS pf PF_RAW_COLOR = false -> stores_alpha pf = true ->
  fst (Color2PixelFormat EncodeYUV color pf (m, out) gamma)
    (out + alpha_offset pf)
  = encode_alpha color pf.
Proof.
  intros Hraw. unfold Color2PixelFormat, alpha_offset, before_size,
    color_size, stores_alpha.
  rewrite Hraw.
  destruct (encode_rgb color pf gamma) as [[ri gi] bi].
  set (ac := encode_alpha color pf).
  destruct (FLAGS pf PF_GRAY); layout_cases pf;
    cbn [negb andb orb put skip fst snd]; intros Hsa;
    try discriminate Hsa; unfold store; store_eqb; reflexivity.
Qed.

(** C3, amended: the stored 8-bit alpha is the integer part (truncation,
    not rounding to nearest) of the single-precision product of the alpha
    clamped to [0,1] and 255.9; it lies in 0..255 and is replaced by 255
    minus itself when the alpha-inversion bit is set; that value is the
    byte an alpha-storing layout receives. *)
Theorem alpha_byte_truncates :
  forall (EncodeYUV : Z -> Z -> ColorReal) (color : Color) (pf : PixelFormat),
    let t := Qfloor (F32.to_Q (F32.mul (clamp01 (get_a color)) c255_9)) in
    0 <= t <= 255
    /\ encode_alpha color pf = (if FLAGS pf PF_A_INV then 255 - t else t)
    /\ forall m out gamma,
        FLAGS pf PF_RAW_COLOR = false -> stores_alpha pf = true ->
        fst (Color2PixelFormat EncodeYUV color pf (m, out) gamma)
          (out + alpha_offset pf)
        = (if FLAGS pf PF_A_INV then 255 - t else t).
Proof.
  intros EncodeYUV color pf t.
  pose proof (of_bits_canonical (a_ color)) as Hc. fold (get_a color) in Hc.
  assert (Ht : t = alpha8 (get_a color)).
  { unfold t. symmetry. apply alpha8_floor. exact Hc. }
  rewrite Ht. split; [|split].
  - apply (alpha8_bounds (get_a color) Hc).
  - apply encode_alpha_eq.
  - intros m out gamma Hraw Hsa. rewrite <- encode_alpha_eq.
    apply encode_alpha_byte; assumption.
Qed.

(** C3 as stated fails: for alpha 0.5 the encoder stores 127, while
    round(0.5 * 255.9) is 128 (and for alpha 1 rounding would give 256,
    which is no 8-bit value). *)
Lemma alpha_rule_is_not_rounding :
  let C := mkColor (real 1 1) (real 0 1) (real 0 1) (real 1 2) in
  FLAGS PF_A PF_RAW_COLOR = false
  /\ encode_alpha C PF_A = 127 /\ spec_alpha C PF_A = 128
  /\ encode_alpha C PF_A <> spec_alpha C PF_A.
Proof.
  cbv zeta. split; [reflexivity|]. split; [vm_compute; reflexivity|].
  split; [vm_compute; reflexivity|]. vm_compute. discriminate.
Qed.

(** *** Premultiplied alpha *)

Lemma premult_table_ok : all_below 256 premult_row = true.
Proof. vm_compute. reflexivity. Qed.

Lemma premult_byte R n :
  0 <= R <= 65535 -> 0 <= n <= 255 ->
  let b := uchar (Z.shiftr (Z.shiftr (R * (n + 1)) 8) 8) in
  0 <= b <= n /\ 65536 * b <= R * (n + 1) <= 65536 * b + 65535.
Proof.
  intros HR Hn b. unfold b, uchar. rewrite !Z.shiftr_div_pow2 by lia.
  change (2 ^ 8) with 256. rewrite Z.div_div by lia. change (256 * 256) with 65536.
  assert (HP : 0 <= R * (n + 1) < 65536 * (n + 1)) by nia.
  assert (H : 0 <= R * (n + 1) / 65536 < n + 1).
  { split; [apply Z.div_pos; lia | apply Z.div_lt_upper_bound; lia]. }
  rewrite Z.mod_small by lia.
  pose proof (Z.mul_div_le (R * (n + 1)) 65536 ltac:(lia)).
  pose proof (Z.mul_succ_div_gt (R * (n + 1)) 65536 ltac:(lia)). lia.
Qed.

Lemma premult_ok_holds n b :
  1 <= n <= 255 -> 0 <= b <= n -> premult_ok n b = true.
Proof.
  intros Hn Hb.
  pose proof (all_below_spec 256 premult_row premult_table_ok n ltac:(lia))
    as Hrow.
  unfold premult_row in Hrow. apply orb_true_iff in Hrow.
  destruct Hrow as [Hz | Hrow]; [apply Z.eqb_eq in Hz; lia|].
  pose proof (all_below_spec 256 (premult_cell n) Hrow b ltac:(lia)) as Hc.
  unfold premult_cell in Hc. apply orb_true_iff in Hc.
  destruct Hc as [Hlt | Hc]; [apply Z.ltb_lt in Hlt; lia | exact Hc].
Qed.

(** A premultiplied channel comes back within [1/n] of the original,
    [n] the stored alpha byte. *)
Lemma premult_close f x n :
  identity_curve f -> canonical32 x -> in_unit x -> 1 <= n <= 255 ->
  let b := uchar (Z.shiftr (Z.shiftr (f x * (n + 1)) 8) 8) in
  F32.is_finite (decoded_div b n) = true
  /\ SFeqb (decoded n) F32.zero = false
  /\ within (1 # Z.to_pos n) (decoded_div b n) x.
Proof.
  intros Hid Hc Hu Hn b.
  pose proof (canonical32_fine x Hc) as Hf.
  destruct (identity_curve_scaled f x Hid Hf Hu) as (HR & Hlo & Hhi).
  pose proof (in_unit_scaled x Hf Hu) as Hs.
  destruct (premult_byte (f x) n HR ltac:(lia)) as [Hb Hq]. fold b in Hb, Hq.
  pose proof (premult_ok_holds n b ltac:(lia) ltac:(lia)) as Hok.
  unfold premult_ok in Hok. cbv zeta in Hok.
  rewrite !andb_true_iff in Hok. destruct Hok as [[[Hfin Hnz] H1] H2].
  rewrite orb_true_iff, !Z.leb_le in H1, H2.
  split; [exact Hfin|]. split; [apply negb_true_iff; exact Hnz|].
  assert (HS : 0 < 2 ^ 200) by (apply Z.pow_pos_nonneg; lia).
  assert (Hgoal : Z.pos (Z.to_pos n) * (scaled (decoded_div b n) - scaled x) <= 2 ^ 200
                  /\ Z.pos (Z.to_pos n) * (scaled x - scaled (decoded_div b n)) <= 2 ^ 200).
  { rewrite Z2Pos.id by lia.
    set (Ds := scaled (decoded_div b n)) in *. set (As := scaled x) in *.
    set (R := f x) in *. set (S := 2 ^ 200) in *.
    clearbody Ds As R S b.
    assert (E1 : (n + 1) * (131070 * As - 2 * S) < (n + 1) * (2 * R * S))
      by (apply Z.mul_lt_mono_pos_l; lia).
    assert (E2 : (n + 1) * (2 * R * S) <= (n + 1) * (131070 * As + S))
      by (apply Z.mul_le_mono_nonneg_l; lia).
    assert (E3 : 65536 * b * S <= R * (n + 1) * S)
      by (apply Z.mul_le_mono_nonneg_r; lia).
    assert (E4 : R * (n + 1) * S <= (65536 * b + 65535) * S)
      by (apply Z.mul_le_mono_nonneg_r; lia).
    assert (E5 : 0 <= n * As) by (apply Z.mul_nonneg_nonneg; lia).
    assert (E6 : n * As <= n * S) by (apply Z.mul_le_mono_nonneg_l; lia).
    assert (Hpos : 0 < 131070 * (n + 1)) by lia.
    split.
    - destruct H1 as [H1 | H1]; [|lia].
      assert (Hk : (131072 * b - (n + 1)) * S <= 131070 * (n + 1) * As) by lia.
      assert (Hk' : n * ((131072 * b - (n + 1)) * S)
                    <= n * (131070 * (n + 1) * As))
        by (apply Z.mul_le_mono_nonneg_l; lia).
      assert (Hk2 : 131070 * (n + 1) * (n * Ds - S)
                    <= 131070 * (n + 1) * (n * As)) by lia.
      apply Z.mul_le_mono_pos_l in Hk2; lia.
    - destruct H2 as [H2 | H2]; [|lia].
      assert (Hk : 131070 * (n + 1) * As
                   <= (131072 * b + 131070 + 2 * (n + 1)) * S) by lia.
      assert (Hk' : n * (131070 * (n + 1) * As)
                    <= n * ((131072 * b + 131070 + 2 * (n + 1)) * S))
        by (apply Z.mul_le_mono_nonneg_l; lia).
      assert (Hk2 : 131070 * (n + 1) * (n * As)
                    <= 131070 * (n + 1) * (n * Ds + S)) by lia.
      apply Z.mul_le_mono_pos_l in Hk2; lia. }
  destruct Hgoal as [G1 G2].
  apply within_scaled; [apply of_bits_fine | exact Hf | exact G1 | exact G2].
Qed.

Lemma finish_premult F c :
  FLAGS F PF_A_PREMULT = true -> FLAGS F PF_A_INV = false ->
  finish F c = demult_alpha c.
Proof. intros Hpre Hinv. unfold finish. rewrite Hpre, Hinv. reflexivity. Qed.

Lemma demult_alpha_zero r g b :
  demult_alpha (mkColor r g b (F32.to_bits (unit_of_byte 0)))
  = mkColor 0 0 0 (F32.to_bits (unit_of_byte 0)).
Proof. reflexivity. Qed.

Lemma demult_alpha_pos r g b n :
  SFeqb (decoded n) F32.zero = false ->
  demult_alpha (mkColor r g b (F32.to_bits (unit_of_byte n)))
  = mkColor (F32.to_bits (F32.div (F32.of_bits r) (decoded n)))
            (F32.to_bits (F32.div (F32.of_bits g) (decoded n)))
            (F32.to_bits (F32.div (F32.of_bits b) (decoded n)))
            (F32.to_bits (unit_of_byte n)).
Proof.
  intros Hnz. unfold demult_alpha.
  rewrite get_a_mk, get_r_mk, get_g_mk, get_b_mk.
  change (F32.of_bits (F32.to_bits (unit_of_byte n))) with (decoded n).
  rewrite Hnz. reflexivity.
Qed.

Lemma alpha8_ends x :
  canonical32 x -> in_unit x ->
  ((F32.to_Q x == 0)%Q -> alpha8 x = 0)
  /\ ((F32.to_Q x == 1)%Q -> alpha8 x = 255).
Proof.
  intros Hc Hu. pose proof (canonical32_fine x Hc) as Hf.
  destruct (alpha8_bounds x Hc) as (HN & Hlo & Hhi & _).
  rewrite (clamp01_unit x Hc Hu) in Hlo, Hhi.
  pose proof (to_Q_S200 x Hf) as Ex.
  split; intros Hq; rewrite Hq in Ex.
  - assert (Hs : scaled x = 0).
    { apply inject_Z_injective. rewrite <- Ex. reflexivity. }
    rewrite Hs in Hlo, Hhi. lia.
  - assert (Hs : scaled x = 2 ^ 200).
    { apply inject_Z_injective. rewrite <- Ex. reflexivity. }
    rewrite Hs in Hlo, Hhi. lia.
Qed.

(** C5, amended: with the premultiplied-alpha bit set (alpha stored and
    not inverted, RGB or BGR, identity gamma, channels in [0,1]) the
    decoded R, G and B are finite and within [1/n] of the original, [n]
    being the stored 8-bit alpha, whenever [n] is not 0; that is one
    quantization step only for [n] = 255, which alpha 1 gives.  When
    [n] is 0, as alpha 0 gives, the decoded R, G and B are +0: black. *)
Theorem premultiplied_roundtrip
  (EncodeYUV : Z -> Z -> ColorReal)
  (set_yuv : Color -> ColorReal -> ColorReal -> ColorReal -> Color)
  (gamma : Gamma) (C c0 : Color) (F : PixelFormat) (m : memory) (out : Z)
  (Hgamma : identity_gamma gamma) (Hunit : unit_Color C)
  (Hraw : FLAGS F PF_RAW_COLOR = false)
  (Hgray : FLAGS F PF_GRAY = false)
  (Hpre : FLAGS F PF_A_PREMULT = true)
  (Hinv : FLAGS F PF_A_INV = false)
  (Hsa : stores_alpha F = true) :
  let n := encode_alpha C F in
  let C' :=
    fst (PixelFormat2Color set_yuv c0 F
           (fst (Color2PixelFormat EncodeYUV C F (m, out) gamma)) out) in
  0 <= n <= 255
  /\ ((F32.to_Q (get_a C) == 0)%Q -> n = 0)
  /\ ((F32.to_Q (get_a C) == 1)%Q -> n = 255)
  /\ (n = 0 ->
      get_r C' = F32.zero /\ get_g C' = F32.zero /\ get_b C' = F32.zero)
  /\ (0 < n ->
      (F32.is_finite (get_r C') = true /\ F32.is_finite (get_g C') = true
       /\ F32.is_finite (get_b C') = true)
      /\ within (1 # Z.to_pos n) (get_r C') (get_r C)
      /\ within (1 # Z.to_pos n) (get_g C') (get_g C)
      /\ within (1 # Z.to_pos n) (get_b C') (get_b C)).
Proof.
  intros n C'. unfold C'. clear C'.
  destruct Hgamma as (Hcr & Hcg & Hcb).
  destruct Hunit as (Hur & Hug & Hub & Hua).
  pose proof (of_bits_canonical (a_ C)) as Hca. fold (get_a C) in Hca.
  assert (Hn : n = alpha8 (get_a C)).
  { unfold n. rewrite encode_alpha_eq, Hinv. reflexivity. }
  assert (Hrange : 0 <= n <= 255).
  { rewrite Hn. apply (alpha8_bounds (get_a C) Hca). }
  split; [exact Hrange|].
  split; [rewrite Hn; apply (alpha8_ends (get_a C) Hca Hua)|].
  split; [rewrite Hn; apply (alpha8_ends (get_a C) Hca Hua)|].
  rewrite (decode_rgb_shape set_yuv c0 F _ out Hraw Hgray).
  destruct (encode_rgb_bytes EncodeYUV C F m out gamma Hraw Hgray)
    as (Er & Eg & Eb & Ea).
  rewrite Er, Eg, Eb, Hsa, (Ea Hsa). clear Er Eg Eb Ea.
  unfold encode_rgb. rewrite Hpre. cbn [fst snd]. fold n.
  rewrite (finish_premult F _ Hpre Hinv).
  split.
  - intros H0. rewrite H0, demult_alpha_zero. repeat split.
  - intros Hpos.
    destruct (premult_close _ (get_r C) n Hcr (of_bits_canonical _) Hur
                ltac:(lia)) as (Fr & Hnz & Wr).
    destruct (premult_close _ (get_g C) n Hcg (of_bits_canonical _) Hug
                ltac:(lia)) as (Fg & _ & Wg).
    destruct (premult_close _ (get_b C) n Hcb (of_bits_canonical _) Hub
                ltac:(lia)) as (Fb & _ & Wb).
    rewrite (demult_alpha_pos _ _ _ n Hnz).
    rewrite get_r_mk, get_g_mk, get_b_mk.
    split; [split; [exact Fr | split; [exact Fg | exact Fb]]|].
    split; [exact Wr | split; [exact Wg | exact Wb]].
Qed.

Lemma half_alpha_example_unit : unit_Color half_alpha_example.
Proof.
  unfold unit_Color. split; [|split; [|split]]; unit_by_computation.
Qed.

Lemma premultiplied_roundtrip_witness :
  let F := pf_or PF_A PF_A_PREMULT in
  let C := half_alpha_example in
  let n := encode_alpha C F in
  let C' :=
    fst (PixelFormat2Color set_yuv_gray (mkColor 0 0 0 0) F
           (fst (Color2PixelFormat EncodeYUV_luma C F (mem0, 0) no_gamma))
           0) in
  0 <= n <= 255
  /\ ((F32.to_Q (get_a C) == 0)%Q -> n = 0)
  /\ ((F32.to_Q (get_a C) == 1)%Q -> n = 255)
  /\ (n = 0 ->
      get_r C' = F32.zero /\ get_g C' = F32.zero /\ get_b C' = F32.zero)
  /\ (0 < n ->
      (F32.is_finite (get_r C') = true /\ F32.is_finite (get_g C') = true
       /\ F32.is_finite (get_b C') = true)
      /\ within (1 # Z.to_pos n) (get_r C') (get_r C)
      /\ within (1 # Z.to_pos n) (get_g C') (get_g C)
      /\ within (1 # Z.to_pos n) (get_b C') (get_b C)).
Proof.
  exact (premultiplied_roundtrip EncodeYUV_luma set_yuv_gray no_gamma
           half_alpha_example (mkColor 0 0 0 0)
           (pf_or PF_A PF_A_PREMULT) mem0 0
           no_gamma_identity half_alpha_example_unit
           eq_refl eq_refl eq_refl eq_refl eq_refl).
Defined.

(** C5 as stated fails: the color (0.25, 0, 0, 1/128), whose alpha is
    positive, is stored under [PF_A | PF_A_PREMULT] as alpha byte 1 and
    red byte 0 and decodes to red 0, a quarter away from the original. *)
Lemma premultiplied_small_alpha_off :
  let F := pf_or PF_A PF_A_PREMULT in
  let C := mkColor (real 1 4) (real 0 1) (real 0 1) (real 1 128) in
  let C' :=
    fst (PixelFormat2Color set_yuv_gray (mkColor 0 0 0 0) F
           (fst (Color2PixelFormat EncodeYUV_luma C F (mem0, 0) no_gamma))
           0) in
  identity_gamma no_gamma /\ unit_Color C
  /\ (0 < F32.to_Q (get_a C))%Q
  /\ FLAGS F PF_A_PREMULT = true
  /\ get_r C' = F32.zero
  /\ ~ within step (get_r C') (get_r C).
Proof.
  cbv zeta. split; [exact no_gamma_identity|].
  split; [unfold unit_Color; split; [|split; [|split]]; unit_by_computation|].
  split; [vm_compute; reflexivity|].
  split; [reflexivity|]. split; [vm_compute; reflexivity|].
  unfold within. vm_compute. intros H. apply H. reflexivity.
Qed.

Lemma spec_example_wf : wf_Color spec_example.
Proof.
  unfold wf_Color. repeat split; vm_compute; (reflexivity || discriminate).
Qed.

Lemma raw_color_roundtrip_witness :
  PixelFormat2Color set_yuv_gray (mkColor 0 0 0 0) PF_RAW_COLOR
    (fst (Color2PixelFormat EncodeYUV_luma spec_example PF_RAW_COLOR
            (mem0, 0) no_gamma)) 0
  = (spec_example,
     snd (Color2PixelFormat EncodeYUV_luma spec_example PF_RAW_COLOR
            (mem0, 0) no_gamma))
  /\ Color2PixelFormat EncodeYUV_luma spec_example PF_RAW_COLOR (mem0, 0)
       no_gamma
     = Color2PixelFormat EncodeYUV_luma spec_example PF_RAW_COLOR (mem0, 0)
         (mkGamma (fun _ => 0) (fun _ => 0) (fun _ => 0)).
Proof.
  exact (raw_color_roundtrip EncodeYUV_luma set_yuv_gray spec_example
           (mkColor 0 0 0 0) PF_RAW_COLOR no_gamma
           (mkGamma (fun _ => 0) (fun _ => 0) (fun _ => 0)) mem0 0
           eq_refl spec_example_wf).
Defined.

(** *** The round trip, layout by layout *)

Lemma uchar_range n : 0 <= uchar n <= 255.
Proof. unfold uchar. pose proof (Z.mod_pos_bound n 256). lia. Qed.

Lemma encode_alpha_range color pf : 0 <= encode_alpha color pf <= 255.
Proof.
  rewrite encode_alpha_eq.
  destruct (alpha8_bounds (get_a color) (of_bits_canonical _)) as (HN & _).
  destruct (FLAGS pf PF_A_INV); lia.
Qed.

(** The channels that come back from a straight RGB or BGR pixel. *)
Lemma straight_roundtrip_channels EncodeYUV set_yuv gamma C c0 F m out :
  FLAGS F PF_RAW_COLOR = false -> FLAGS F PF_GRAY = false ->
  FLAGS F PF_A_PREMULT = false ->
  let C' :=
    fst (PixelFormat2Color set_yuv c0 F
           (fst (Color2PixelFormat EncodeYUV C F (m, out) gamma)) out) in
  get_r C' = decoded (uchar (Z.shiftr (r_F32_to_U16 gamma (get_r C)) 8))
  /\ get_g C' = decoded (uchar (Z.shiftr (g_F32_to_U16 gamma (get_g C)) 8))
  /\ get_b C' = decoded (uchar (Z.shiftr (b_F32_to_U16 gamma (get_b C)) 8))
  /\ (stores_alpha F = true ->
      get_a C' = if FLAGS F PF_A_INV then decoded_inv (encode_alpha C F)
                 else decoded (encode_alpha C F)).
Proof.
  intros Hraw Hgray Hpre C'. unfold C'. clear C'.
  rewrite (decode_rgb_shape set_yuv c0 F _ out Hraw Hgray).
  destruct (encode_rgb_bytes EncodeYUV C F m out gamma Hraw Hgray)
    as (Er & Eg & Eb & Ea).
  rewrite Er, Eg, Eb. clear Er Eg Eb.
  unfold encode_rgb. rewrite Hpre. cbn [fst snd].
  rewrite (finish_straight F _ Hpre). cbn [r_ g_ b_ a_].
  rewrite get_r_mk, get_g_mk, get_b_mk, get_a_mk.
  split; [reflexivity | split; [reflexivity | split; [reflexivity |]]].
  intros Hsa. rewrite Hsa. rewrite (Ea Hsa).
  destruct (FLAGS F PF_A_INV); reflexivity.
Qed.

(** What the decoder builds from the bytes of a gray pixel. *)
Lemma decode_gray_shape set_yuv c0 pf m in_ :
  FLAGS pf PF_RAW_COLOR = false -> FLAGS pf PF_GRAY = true ->
  fst (PixelFormat2Color set_yuv c0 pf m in_) =
  finish pf
    (let y := unit_of_byte (m (in_ + before_size pf)) in
     let al := F32.to_bits (unit_of_byte (m (in_ + alpha_offset pf))) in
     if FLAGS pf PF_A_START then
       set_yuv (mkColor (r_ c0) (g_ c0) (b_ c0) al) y (F32.of_Z 0) (F32.of_Z 0)
     else if FLAGS pf PF_A then
       let c := set_yuv c0 y (F32.of_Z 0) (F32.of_Z 0) in
       mkColor (r_ c) (g_ c) (b_ c) al
     else set_yuv c0 y (F32.of_Z 0) (F32.of_Z 0)).
Proof.
  intros Hraw Hgray.
  unfold PixelFormat2Color, finish, alpha_offset, before_size, color_size.
  rewrite Hraw, Hgray.
  set (inv := FLAGS pf PF_A_INV). set (pre := FLAGS pf PF_A_PREMULT).
  destruct (FLAGS pf PF_ZA), (FLAGS pf PF_Z_START), (FLAGS pf PF_A_START),
    (FLAGS pf PF_Z), (FLAGS pf PF_A);
    cbn [negb andb orb read_a next fst snd set_a]; unfold read_channel;
    norm_addr m in_; reflexivity.
Qed.

Lemma offsets_in_pixel pf :
  FLAGS pf PF_RAW_COLOR = false ->
  0 <= before_size pf < pixel_size pf
  /\ (FLAGS pf PF_GRAY = false ->
      0 <= red_offset pf < pixel_size pf
      /\ 0 <= green_offset pf < pixel_size pf
      /\ 0 <= blue_offset pf < pixel_size pf)
  /\ (stores_alpha pf = true -> 0 <= alpha_offset pf < pixel_size pf).
Proof.
  intros Hraw.
  unfold pixel_size, red_offset, green_offset, blue_offset, alpha_offset,
    before_size, color_size, stores_alpha.
  rewrite Hraw.
  destruct (FLAGS pf PF_GRAY); layout_cases pf; cbn [negb andb orb];
    (split; [lia|]); (split; intros H; try discriminate H; lia).
Qed.

Lemma PixelFormat2Color_ext set_yuv c0 pf m m' in_ :
  (forall p, in_ <= p < in_ + pixel_size pf -> m p = m' p) ->
  PixelFormat2Color set_yuv c0 pf m in_
  = PixelFormat2Color set_yuv c0 pf m' in_.
Proof.
  intros H.
  destruct (FLAGS pf PF_RAW_COLOR) eqn:Hraw.
  - rewrite !PixelFormat2Color_raw by exact Hraw.
    unfold pixel_size in H. rewrite Hraw in H. unfold sizeof_Color in *.
    change (Z.to_nat 16) with 16%nat. cbn [load_bytes].
    rewrite !H by lia. reflexivity.
  - rewrite (surjective_pairing (PixelFormat2Color set_yuv c0 pf m in_)).
    rewrite (surjective_pairing (PixelFormat2Color set_yuv c0 pf m' in_)).
    rewrite !PixelFormat2Color_advance. f_equal.
    destruct (offsets_in_pixel pf Hraw) as (Hb & Hrgb & Ha).
    destruct (FLAGS pf PF_GRAY) eqn:Hgray.
    + rewrite !decode_gray_shape by assumption. cbv zeta.
      rewrite (H (in_ + before_size pf)) by lia.
      unfold stores_alpha in Ha.
      destruct (FLAGS pf PF_A_START); [rewrite H by (specialize (Ha eq_refl); lia); reflexivity|].
      destruct (FLAGS pf PF_A); [rewrite H by (specialize (Ha eq_refl); lia)|];
        reflexivity.
    + rewrite !decode_rgb_shape by assumption.
      destruct (Hrgb eq_refl) as (Hr & Hg & Hbl).
      rewrite (H (in_ + red_offset pf)), (H (in_ + green_offset pf)),
        (H (in_ + blue_offset pf)) by lia.
      destruct (stores_alpha pf); [rewrite H by (specialize (Ha eq_refl); lia)|];
        reflexivity.
Qed.

Lemma a_demult_alpha c : a_ (demult_alpha c) = a_ c.
Proof. unfold demult_alpha. destruct (SFeqb (get_a c) F32.zero); reflexivity. Qed.

Lemma get_a_finish F c :
  get_a (finish F c)
  = if FLAGS F PF_A_INV
    then F32.of_bits (F32.to_bits (F32.sub F32.one (get_a c)))
    else get_a c.
Proof.
  unfold finish.
  destruct (FLAGS F PF_A_PREMULT); unfold get_a; rewrite ?a_demult_alpha;
    destruct (FLAGS F PF_A_INV); reflexivity.
Qed.

(** The alpha the decoder returns under a layout that stores one: the
    alpha byte scaled, or one minus it under [PF_A_INV]. *)
Lemma decode_alpha_shape set_yuv c0 pf m in_ :
  FLAGS pf PF_RAW_COLOR = false -> stores_alpha pf = true ->
  (FLAGS pf PF_GRAY = true -> FLAGS pf PF_A_START = true ->
   forall c y u v, a_ (set_yuv c y u v) = a_ c) ->
  get_a (fst (PixelFormat2Color set_yuv c0 pf m in_))
  = if FLAGS pf PF_A_INV then decoded_inv (m (in_ + alpha_offset pf))
    else decoded (m (in_ + alpha_offset pf)).
Proof.
  intros Hraw Hsa Hyuv.
  destruct (FLAGS pf PF_GRAY) eqn:Hgray.
  - rewrite (decode_gray_shape set_yuv c0 pf m in_ Hraw Hgray).
    rewrite get_a_finish. cbv zeta. unfold stores_alpha in Hsa.
    destruct (FLAGS pf PF_A_START) eqn:Has.
    + unfold get_a. rewrite (Hyuv eq_refl eq_refl). cbn [a_].
      destruct (FLAGS pf PF_A_INV); reflexivity.
    + cbn [orb] in Hsa. rewrite Hsa. unfold get_a. cbn [a_].
      destruct (FLAGS pf PF_A_INV); reflexivity.
  - rewrite (decode_rgb_shape set_yuv c0 pf m in_ Hraw Hgray).
    rewrite get_a_finish, Hsa, get_a_mk.
    destruct (FLAGS pf PF_A_INV); reflexivity.
Qed.

Lemma alpha_roundtrip_close EncodeYUV set_yuv gamma C c0 F m out :
  in_unit (get_a C) ->
  FLAGS F PF_RAW_COLOR = false -> stores_alpha F = true ->
  (FLAGS F PF_GRAY = true -> FLAGS F PF_A_START = true ->
   forall c y u v, a_ (set_yuv c y u v) = a_ c) ->
  within step
    (get_a (fst (PixelFormat2Color set_yuv c0 F
                   (fst (Color2PixelFormat EncodeYUV C F (m, out) gamma))
                   out)))
    (get_a C).
Proof.
  intros Hua Hraw Hsa Hyuv.
  rewrite (decode_alpha_shape set_yuv c0 F _ out Hraw Hsa Hyuv).
  rewrite (encode_alpha_byte EncodeYUV C F m out gamma Hraw Hsa).
  rewrite encode_alpha_eq.
  destruct (FLAGS F PF_A_INV).
  - exact (alpha_inv_close _ (of_bits_canonical _) Hua).
  - exact (alpha_close _ (of_bits_canonical _) Hua).
Qed.

Lemma rgb_roundtrip_close EncodeYUV set_yuv gamma C c0 F m out :
  identity_gamma gamma ->
  in_unit (get_r C) -> in_unit (get_g C) -> in_unit (get_b C) ->
  FLAGS F PF_RAW_COLOR = false -> FLAGS F PF_GRAY = false ->
  FLAGS F PF_A_PREMULT = false ->
  let C' :=
    fst (PixelFormat2Color set_yuv c0 F
           (fst (Color2PixelFormat EncodeYUV C F (m, out) gamma)) out) in
  within step (get_r C') (get_r C)
  /\ within step (get_g C') (get_g C)
  /\ within step (get_b C') (get_b C).
Proof.
  intros (Hcr & Hcg & Hcb) Hur Hug Hub Hraw Hgray Hpre C'.
  destruct (straight_roundtrip_channels EncodeYUV set_yuv gamma C c0 F m
              out Hraw Hgray Hpre) as (Er & Eg & Eb & _).
  fold C' in Er, Eg, Eb. rewrite Er, Eg, Eb.
  split; [|split].
  - exact (color_channel_close _ _ Hcr (of_bits_canonical _) Hur).
  - exact (color_channel_close _ _ Hcg (of_bits_canonical _) Hug).
  - exact (color_channel_close _ _ Hcb (of_bits_canonical _) Hub).
Qed.

(** C1, amended: a color of [0,1]^4 encoded under a descriptor that is
    not raw decodes to a color whose alpha is within one quantization
    step (1/255) of the original whenever the layout stores an alpha
    byte, whatever the gamma, gray and premultiplied layouts included
    (a gray layout with the alpha byte first needs a [set_yuv] that
    leaves alpha as it is); and, under the identity gamma, whose R, G
    and B are within one step of the original when the descriptor is
    neither gray nor premultiplied. *)
Theorem rgb_alpha_roundtrip
  (EncodeYUV : Z -> Z -> ColorReal)
  (set_yuv : Color -> ColorReal -> ColorReal -> ColorReal -> Color)
  (gamma : Gamma) (C c0 : Color) (F : PixelFormat) (m : memory) (out : Z)
  (Hunit : unit_Color C)
  (Hraw : FLAGS F PF_RAW_COLOR = false) :
  let C' :=
    fst (PixelFormat2Color set_yuv c0 F
           (fst (Color2PixelFormat EncodeYUV C F (m, out) gamma)) out) in
  (identity_gamma gamma ->
   FLAGS F PF_GRAY = false -> FLAGS F PF_A_PREMULT = false ->
   within step (get_r C') (get_r C)
   /\ within step (get_g C') (get_g C)
   /\ within step (get_b C') (get_b C))
  /\ (stores_alpha F = true ->
      (FLAGS F PF_GRAY = true -> FLAGS F PF_A_START = true ->
       forall c y u v, a_ (set_yuv c y u v) = a_ c) ->
      within step (get_a C') (get_a C)).
Proof.
  intros C'. destruct Hunit as (Hur & Hug & Hub & Hua). split.
  - intros Hgamma Hgray Hpre.
    exact (rgb_roundtrip_close EncodeYUV set_yuv gamma C c0 F m out Hgamma
             Hur Hug Hub Hraw Hgray Hpre).
  - intros Hsa Hyuv.
    exact (alpha_roundtrip_close EncodeYUV set_yuv gamma C c0 F m out Hua
             Hraw Hsa Hyuv).
Qed.

Lemma rgb_alpha_roundtrip_witness :
  let F := pf_or PF_BGR (pf_or PF_A PF_A_INV) in
  let C' :=
    fst (PixelFormat2Color set_yuv_gray (mkColor 0 0 0 0) F
           (fst (Color2PixelFormat EncodeYUV_luma spec_example F (mem0, 0)
                   no_gamma)) 0) in
  within step (get_r C') (get_r spec_example)
  /\ within step (get_g C') (get_g spec_example)
  /\ within step (get_b C') (get_b spec_example)
  /\ (stores_alpha F = true -> within step (get_a C') (get_a spec_example)).
Proof.
  destruct (rgb_alpha_roundtrip EncodeYUV_luma set_yuv_gray no_gamma
              spec_example (mkColor 0 0 0 0)
              (pf_or PF_BGR (pf_or PF_A PF_A_INV)) mem0 0
              spec_example_unit eq_refl) as [Hrgb Ha].
  destruct (Hrgb no_gamma_identity eq_refl eq_refl) as (Hr & Hg & Hb).
  split; [exact Hr|]. split; [exact Hg|]. split; [exact Hb|].
  intros Hsa. apply (Ha Hsa). intros Hgray. discriminate Hgray.
Defined.

(** The gray layout stores one byte for R, G and B: black and the dark
    blue (0, 0, 1/32) are both encoded as the gray byte 0, so whatever
    [set_yuv] does, the decoder returns one color for both, and its blue
    cannot be within 1/255 of both 0 and 1/32. *)
Lemma gray_roundtrip_off :
  let F := PF_GRAY in
  let C1 := mkColor (real 0 1) (real 0 1) (real 0 1) (real 1 1) in
  let C2 := mkColor (real 0 1) (real 0 1) (real 1 32) (real 1 1) in
  let dec set_yuv c0 C :=
    fst (PixelFormat2Color set_yuv c0 F
           (fst (Color2PixelFormat EncodeYUV_luma C F (mem0, 0) no_gamma))
           0) in
  identity_gamma no_gamma /\ unit_Color C1 /\ unit_Color C2
  /\ FLAGS F PF_RAW_COLOR = false
  /\ forall set_yuv c0,
      ~ (within step (get_b (dec set_yuv c0 C1)) (get_b C1)
         /\ within step (get_b (dec set_yuv c0 C2)) (get_b C2)).
Proof.
  cbv zeta. split; [exact no_gamma_identity|].
  split; [unfold unit_Color; split; [|split; [|split]]; unit_by_computation|].
  split; [unfold unit_Color; split; [|split; [|split]]; unit_by_computation|].
  split; [reflexivity|].
  intros set_yuv c0.
  set (C1 := mkColor (real 0 1) (real 0 1) (real 0 1) (real 1 1)).
  set (C2 := mkColor (real 0 1) (real 0 1) (real 1 32) (real 1 1)).
  assert (E : PixelFormat2Color set_yuv c0 PF_GRAY
                (fst (Color2PixelFormat EncodeYUV_luma C2 PF_GRAY (mem0, 0)
                        no_gamma)) 0
              = PixelFormat2Color set_yuv c0 PF_GRAY
                  (fst (Color2PixelFormat EncodeYUV_luma C1 PF_GRAY (mem0, 0)
                          no_gamma)) 0).
  { apply PixelFormat2Color_ext. intros p Hp.
    change (pixel_size PF_GRAY) with 1 in Hp.
    assert (p = 0) by lia. subst p. vm_compute. reflexivity. }
  rewrite E.
  set (X := get_b (fst (PixelFormat2Color set_yuv c0 PF_GRAY _ 0))).
  unfold within, step.
  assert (E1 : (F32.to_Q (get_b C1) == 0)%Q) by (vm_compute; reflexivity).
  assert (E2 : (F32.to_Q (get_b C2) == 1 # 32)%Q) by (vm_compute; reflexivity).
  rewrite E1, E2. intros [H1 H2].
  apply Qabs_Qle_condition in H1, H2. lra.
Qed.

(** Under [PF_A | PF_A_PREMULT], a descriptor that is not raw, the color
    (0.5, 0.5, 0.5, 0.25) comes back with a red channel more than 1/255
    away. *)
Lemma premultiplied_roundtrip_off :
  let F := pf_or PF_A PF_A_PREMULT in
  let C := mkColor (real 1 2) (real 1 2) (real 1 2) (real 1 4) in
  let C' :=
    fst (PixelFormat2Color set_yuv_gray (mkColor 0 0 0 0) F
           (fst (Color2PixelFormat EncodeYUV_luma C F (mem0, 0) no_gamma))
           0) in
  identity_gamma no_gamma /\ unit_Color C
  /\ FLAGS F PF_RAW_COLOR = false /\ FLAGS F PF_GRAY = false
  /\ ~ within step (get_r C') (get_r C).
Proof.
  cbv zeta. split; [exact no_gamma_identity|].
  split; [unfold unit_Color; split; [|split; [|split]]; unit_by_computation|].
  split; [reflexivity|]. split; [reflexivity|].
  unfold within. vm_compute. intros H. apply H. reflexivity.
Qed.

(** C1 as stated fails for R, G and B under the two kinds of descriptor
    the amended statement leaves out: a premultiplied one, where the
    color (0.5, 0.5, 0.5, 0.25) comes back with a red channel more than
    1/255 away, and a gray one, where black and the dark blue
    (0, 0, 1/32) come back as one color whatever [set_yuv] does. *)
Lemma rgb_roundtrip_off_premultiplied_and_gray :
  (let F := pf_or PF_A PF_A_PREMULT in
   let C := mkColor (real 1 2) (real 1 2) (real 1 2) (real 1 4) in
   let C' :=
     fst (PixelFormat2Color set_yuv_gray (mkColor 0 0 0 0) F
            (fst (Color2PixelFormat EncodeYUV_luma C F (mem0, 0) no_gamma))
            0) in
   identity_gamma no_gamma /\ unit_Color C
   /\ FLAGS F PF_RAW_COLOR = false /\ FLAGS F PF_GRAY = false
   /\ ~ within step (get_r C') (get_r C))
  /\ (let F := PF_GRAY in
      let C1 := mkColor (real 0 1) (real 0 1) (real 0 1) (real 1 1) in
      let C2 := mkColor (real 0 1) (real 0 1) (real 1 32) (real 1 1) in
      let dec set_yuv c0 C :=
        fst (PixelFormat2Color set_yuv c0 F
               (fst (Color2PixelFormat EncodeYUV_luma C F (mem0, 0)
                       no_gamma)) 0) in
      identity_gamma no_gamma /\ unit_Color C1 /\ unit_Color C2
      /\ FLAGS F PF_RAW_COLOR = false
      /\ forall set_yuv c0,
          ~ (within step (get_b (dec set_yuv c0 C1)) (get_b C1)
             /\ within step (get_b (dec set_yuv c0 C2)) (get_b C2))).
Proof.
  split; [exact premultiplied_roundtrip_off | exact gray_roundtrip_off].
Qed.

(* ================================================================== *)
(** ** Further properties of the codec *)

(** *** Further properties of the encoder's cursor and frame *)

(** X1: The encoder changes no byte outside the pixel it writes: below the
    cursor it was given and from the cursor it returns on, memory is as
    before. *)
Theorem encoder_writes_inside_its_pixel
  (EncodeYUV : Z -> Z -> ColorReal) (color : Color) (pf : PixelFormat)
  (m : memory) (out : Z) (gamma : Gamma) (p : Z)
  (Hp : p < out
        \/ snd (Color2PixelFormat EncodeYUV color pf (m, out) gamma) <= p) :
  fst (Color2PixelFormat EncodeYUV color pf (m, out) gamma) p = m p.
Proof.
  rewrite Color2PixelFormat_advance in Hp. cbn [snd] in Hp.
  apply Color2PixelFormat_frame. exact Hp.
Qed.

Lemma encoder_writes_inside_its_pixel_witness :
  fst (Color2PixelFormat EncodeYUV_luma spec_example
         (pf_or PF_A PF_BGR) (mem0, 8) no_gamma) 12 = mem0 12.
Proof.
  apply (encoder_writes_inside_its_pixel EncodeYUV_luma spec_example
           (pf_or PF_A PF_BGR) mem0 8 no_gamma 12).
  right. rewrite Color2PixelFormat_advance. cbn. lia.
Defined.

(** X2: The encoder never advances by less than [channels], and by at most
    two bytes more; it advances by exactly [channels] if and only if the
    descriptor is raw or each placement bit that is set ([PF_A_START],
    [PF_Z_START]) comes with its presence bit ([PF_A], [PF_Z]). *)
Theorem encode_advance_and_channels :
  forall (EncodeYUV : Z -> Z -> ColorReal) (color : Color)
         (pf : PixelFormat) (m : memory) (out : Z) (gamma : Gamma),
    let out' := snd (Color2PixelFormat EncodeYUV color pf (m, out) gamma) in
    out + channels pf <= out' <= out + channels pf + 2
    /\ (out' = out + channels pf <->
        FLAGS pf PF_RAW_COLOR = true
        \/ ((FLAGS pf PF_A_START = true -> FLAGS pf PF_A = true)
            /\ (FLAGS pf PF_Z_START = true -> FLAGS pf PF_Z = true))).
Proof.
  intros EncodeYUV color pf m out gamma out'. unfold out'. clear out'.
  rewrite Color2PixelFormat_advance. cbn [snd].
  destruct (FLAGS pf PF_RAW_COLOR) eqn:Hraw.
  - unfold pixel_size, channels. rewrite Hraw. split; [lia|].
    split; [intros _; left; reflexivity | intros _; reflexivity].
  - pose proof (pixel_size_channels pf Hraw) as Hd.
    destruct (FLAGS pf PF_A_START), (FLAGS pf PF_A), (FLAGS pf PF_Z_START),
      (FLAGS pf PF_Z); cbn [andb negb] in Hd; (split; [lia|]);
      split; intros H;
      try (right; split; intros E; (reflexivity || discriminate E)); try lia;
      try (destruct H as [H | [H1 H2]];
           [discriminate H
           | try (specialize (H1 eq_refl); discriminate H1);
             try (specialize (H2 eq_refl); discriminate H2)]).
Qed.

(** *** The buffer conversion *)

Lemma convert_color_format_frame EncodeYUV clamped src :
  forall m dest pf gamma p,
    p < dest
    \/ dest + Z.of_nat (List.length src) * pixel_size pf <= p ->
    0 <= pixel_size pf ->
    fst (convert_color_format EncodeYUV clamped (m, dest) src pf gamma) p
    = m p.
Proof.
  induction src as [|c src IH]; intros m dest pf gamma p Hp Hsz.
  - reflexivity.
  - cbn [convert_color_format].
    destruct (Color2PixelFormat EncodeYUV (clamped c) pf (m, dest) gamma)
      as [m1 d1] eqn:E.
    assert (Hd1 : d1 = dest + pixel_size pf).
    { change d1 with (snd (m1, d1)). rewrite <- E.
      rewrite Color2PixelFormat_advance. reflexivity. }
    assert (Hm1 : m1 p = m p).
    { change m1 with (fst (m1, d1)). rewrite <- E.
      apply Color2PixelFormat_frame.
      cbn [List.length] in Hp. nia. }
    rewrite IH; [exact Hm1 | | exact Hsz].
    cbn [List.length] in Hp. subst d1. nia.
Qed.

Lemma pixel_size_pos pf : 1 <= pixel_size pf <= 16.
Proof.
  unfold pixel_size, sizeof_Color.
  destruct (FLAGS pf PF_RAW_COLOR), (FLAGS pf PF_GRAY),
    (FLAGS pf PF_A_START), (FLAGS pf PF_A), (FLAGS pf PF_Z_START),
    (FLAGS pf PF_Z); cbn; lia.
Qed.

(** X3: [convert_color_format] on [w] colors returns the cursor advanced by
    [w] pixels, an empty source leaving the destination as it is;
    converting a sequence is converting its first part and then the rest
    from the cursor reached; and no byte outside the [w] pixels
    changes. *)
Theorem convert_color_format_stream :
  forall (EncodeYUV : Z -> Z -> ColorReal) (clamped : Color -> Color)
         (m : memory) (dest : Z) (pf : PixelFormat) (gamma : Gamma)
         (src src' : list Color),
    convert_color_format EncodeYUV clamped (m, dest) [] pf gamma = (m, dest)
    /\ snd (convert_color_format EncodeYUV clamped (m, dest) src pf gamma)
       = dest + Z.of_nat (List.length src) * pixel_size pf
    /\ convert_color_format EncodeYUV clamped (m, dest) (src ++ src') pf gamma
       = convert_color_format EncodeYUV clamped
           (convert_color_format EncodeYUV clamped (m, dest) src pf gamma)
           src' pf gamma
    /\ forall p,
        p < dest
        \/ snd (convert_color_format EncodeYUV clamped (m, dest) src pf gamma)
           <= p ->
        fst (convert_color_format EncodeYUV clamped (m, dest) src pf gamma) p
        = m p.
Proof.
  intros EncodeYUV clamped m dest pf gamma src src'.
  split; [reflexivity|]. split.
  { rewrite convert_color_format_advance. reflexivity. }
  split.
  - generalize (m, dest). induction src as [|c src IH]; intros d.
    + reflexivity.
    + cbn [convert_color_format app]. apply IH.
  - intros p Hp. rewrite convert_color_format_advance in Hp. cbn [snd] in Hp.
    apply convert_color_format_frame; [exact Hp|].
    pose proof (pixel_size_pos pf). lia.
Qed.

Lemma Color2PixelFormat_layout EncodeYUV color pf m out gamma p :
  FLAGS pf PF_RAW_COLOR = false ->
  fst (Color2PixelFormat EncodeYUV color pf (m, out) gamma) p
  = match pixel_byte EncodeYUV color pf gamma (p - out) with
    | Some v => v
    | None => m p
    end.
Proof.
  intros Hraw.
  unfold Color2PixelFormat, pixel_byte, gray_byte, red_offset, green_offset,
    blue_offset, alpha_offset, before_size, color_size, stores_alpha.
  rewrite Hraw.
  destruct (encode_rgb color pf gamma) as [[ri gi] bi].
  set (ac := encode_alpha color pf).
  set (gb := uchar (Z.shiftr _ 16)).
  destruct (FLAGS pf PF_GRAY); layout_cases pf;
    cbn [negb andb orb put skip fst snd]; unfold store;
    eqb_cases; try reflexivity; exfalso; lia.
Qed.

(** *** Flags *)

Lemma same_codec_bits_FLAGS pf pf' :
  same_codec_bits pf pf' ->
  FLAGS pf PF_RAW_COLOR = FLAGS pf' PF_RAW_COLOR
  /\ FLAGS pf PF_GRAY = FLAGS pf' PF_GRAY
  /\ FLAGS pf PF_A = FLAGS pf' PF_A
  /\ FLAGS pf PF_Z = FLAGS pf' PF_Z
  /\ FLAGS pf PF_BGR = FLAGS pf' PF_BGR
  /\ FLAGS pf PF_A_START = FLAGS pf' PF_A_START
  /\ FLAGS pf PF_Z_START = FLAGS pf' PF_Z_START
  /\ FLAGS pf PF_ZA = FLAGS pf' PF_ZA
  /\ FLAGS pf PF_A_INV = FLAGS pf' PF_A_INV
  /\ FLAGS pf PF_A_PREMULT = FLAGS pf' PF_A_PREMULT.
Proof.
  intros H. autorewrite with flags.
  rewrite (H 0), (H 1), (H 2), (H 3), (H 4), (H 5), (H 6), (H 7), (H 9),
    (H 10) by (cbn; tauto).
  repeat split; reflexivity.
Qed.

(** X8: A descriptor has the flags of [y | z] exactly when it has those of
    [y] and those of [z]; every descriptor has the (empty) flags of
    [PF_RGB] and its own; [x | y] has the flags of [y]; and having flags
    is transitive. *)
Theorem FLAGS_union :
  forall x y z : PixelFormat,
    FLAGS x (pf_or y z) = FLAGS x y && FLAGS x z
    /\ FLAGS x PF_RGB = true
    /\ FLAGS x x = true
    /\ FLAGS (pf_or x y) y = true
    /\ (FLAGS x y = true -> FLAGS y z = true -> FLAGS x z = true).
Proof.
  intros x y z. split; [|split; [|split; [|split]]].
  - apply eq_true_iff_eq. rewrite andb_true_iff, !FLAGS_spec.
    unfold pf_or. split.
    + intros H. split; intros i Hi Hb; apply H; try exact Hi;
        rewrite Z.lor_spec, Hb; auto using orb_true_r.
    + intros [Hy Hz] i Hi Hb. rewrite Z.lor_spec in Hb.
      apply orb_true_iff in Hb. destruct Hb; auto.
  - unfold FLAGS, pf_and, PF_RGB. rewrite Z.land_0_r. reflexivity.
  - apply FLAGS_spec. auto.
  - apply FLAGS_spec. intros i Hi Hb. unfold pf_or.
    rewrite Z.lor_spec, Hb. apply orb_true_r.
  - rewrite !FLAGS_spec. intros Hxy Hyz i Hi Hb. auto.
Qed.

(** X9: The codec reads a descriptor through bits 0-7, 9 and 10 only: two
    descriptors that agree there have the same [channels], encoder and
    decoder.  Bit 8, [PF_Z_INV], is among the bits never read, so setting
    it changes nothing. *)
Theorem codec_reads_only_its_bits :
  (forall pf, same_codec_bits pf (pf_or pf PF_Z_INV))
  /\ forall pf pf',
      same_codec_bits pf pf' ->
      channels pf = channels pf'
      /\ (forall EncodeYUV color out gamma,
            Color2PixelFormat EncodeYUV color pf out gamma
            = Color2PixelFormat EncodeYUV color pf' out gamma)
      /\ (forall set_yuv color m in_,
            PixelFormat2Color set_yuv color pf m in_
            = PixelFormat2Color set_yuv color pf' m in_).
Proof.
  split.
  - intros pf i Hi. unfold PF_Z_INV.
    assert (0 <= i /\ i <> 8) as [Hi0 Hi8].
    { cbn in Hi. lia. }
    rewrite testbit_or_bit by lia.
    replace (i =? 8) with false by (symmetry; apply Z.eqb_neq; exact Hi8).
    rewrite orb_false_r. reflexivity.
  - intros pf pf' H.
    destruct (same_codec_bits_FLAGS pf pf' H)
      as (Eraw & Egray & EA & EZ & Ebgr & Eas & Ezs & Eza & Einv & Epre).
    split; [|split].
    + unfold channels. rewrite Eraw, Egray, EA, EZ. reflexivity.
    + intros EncodeYUV color out gamma.
      unfold Color2PixelFormat, encode_rgb, encode_alpha.
      rewrite Eraw, Egray, EA, EZ, Ebgr, Eas, Ezs, Eza, Einv, Epre.
      reflexivity.
    + intros set_yuv color m in_. unfold PixelFormat2Color.
      rewrite Eraw, Egray, EA, EZ, Ebgr, Eas, Ezs, Eza, Einv, Epre.
      reflexivity.
Qed.

Lemma FLAGS_or_BGR pf :
  FLAGS (pf_or pf PF_BGR) PF_RAW_COLOR = FLAGS pf PF_RAW_COLOR
  /\ FLAGS (pf_or pf PF_BGR) PF_GRAY = FLAGS pf PF_GRAY
  /\ FLAGS (pf_or pf PF_BGR) PF_A = FLAGS pf PF_A
  /\ FLAGS (pf_or pf PF_BGR) PF_Z = FLAGS pf PF_Z
  /\ FLAGS (pf_or pf PF_BGR) PF_BGR = true
  /\ FLAGS (pf_or pf PF_BGR) PF_A_START = FLAGS pf PF_A_START
  /\ FLAGS (pf_or pf PF_BGR) PF_Z_START = FLAGS pf PF_Z_START
  /\ FLAGS (pf_or pf PF_BGR) PF_ZA = FLAGS pf PF_ZA
  /\ FLAGS (pf_or pf PF_BGR) PF_A_INV = FLAGS pf PF_A_INV
  /\ FLAGS (pf_or pf PF_BGR) PF_A_PREMULT = FLAGS pf PF_A_PREMULT.
Proof.
  autorewrite with flags. unfold PF_BGR.
  rewrite !testbit_or_bit by lia. cbn [Z.eqb Pos.eqb orb].
  rewrite !orb_false_r, ?orb_true_r. repeat split; reflexivity.
Qed.

(** X4: The encoder writes, for a descriptor that is not raw, exactly the
    bytes of the layout: the alpha byte at the alpha offset when the
    layout stores alpha, the gray byte, or the red, green and blue bytes
    at their offsets; all of them inside the pixel; every other byte of
    memory, the depth slot among them, is as before. *)
Theorem encoder_layout
  (EncodeYUV : Z -> Z -> ColorReal) (color : Color) (pf : PixelFormat)
  (m : memory) (out : Z) (gamma : Gamma)
  (Hraw : FLAGS pf PF_RAW_COLOR = false) :
  (forall p,
      fst (Color2PixelFormat EncodeYUV color pf (m, out) gamma) p
      = match pixel_byte EncodeYUV color pf gamma (p - out) with
        | Some v => v
        | None => m p
        end)
  /\ (forall k, pixel_byte EncodeYUV color pf gamma k <> None ->
        0 <= k < pixel_size pf).
Proof.
  split.
  - intros p. apply Color2PixelFormat_layout. exact Hraw.
  - intros k. unfold pixel_byte, pixel_size, red_offset, green_offset,
      blue_offset, alpha_offset, before_size, color_size, stores_alpha.
    rewrite Hraw.
    destruct (encode_rgb color pf gamma) as [[ri gi] bi].
    destruct (FLAGS pf PF_GRAY); layout_cases pf;
      cbn [negb andb orb]; eqb_cases; intros H; try (exfalso; apply H;
      reflexivity); lia.
Qed.

Lemma encoder_layout_witness :
  let pf := pf_or PF_A PF_BGR in
  (forall p,
      fst (Color2PixelFormat EncodeYUV_luma spec_example pf (mem0, 8)
             no_gamma) p
      = match pixel_byte EncodeYUV_luma spec_example pf no_gamma (p - 8) with
        | Some v => v
        | None => mem0 p
        end)
  /\ (forall k, pixel_byte EncodeYUV_luma spec_example pf no_gamma k <> None ->
        0 <= k < pixel_size pf).
Proof.
  exact (encoder_layout EncodeYUV_luma spec_example (pf_or PF_A PF_BGR)
           mem0 8 no_gamma eq_refl).
Defined.

(** X6: [PF_BGR] exchanges the first and the third color byte of an RGB
    pixel and does nothing else: the encoder writes under [pf | PF_BGR]
    the bytes it writes under [pf] with those two exchanged, and the
    decoder reads under [pf | PF_BGR] what it reads under [pf] from the
    memory with those two exchanged. *)
Theorem bgr_exchanges_red_and_blue
  (EncodeYUV : Z -> Z -> ColorReal)
  (set_yuv : Color -> ColorReal -> ColorReal -> ColorReal -> Color)
  (color c0 : Color) (pf : PixelFormat) (m : memory) (out : Z)
  (gamma : Gamma)
  (Hraw : FLAGS pf PF_RAW_COLOR = false)
  (Hgray : FLAGS pf PF_GRAY = false)
  (Hbgr : FLAGS pf PF_BGR = false) :
  (forall p,
      fst (Color2PixelFormat EncodeYUV color (pf_or pf PF_BGR) (m, out) gamma)
        p
      = fst (Color2PixelFormat EncodeYUV color pf (m, out) gamma)
          (exchange_red_blue pf out p))
  /\ fst (PixelFormat2Color set_yuv c0 (pf_or pf PF_BGR) m out)
     = fst (PixelFormat2Color set_yuv c0 pf
              (fun p => m (exchange_red_blue pf out p)) out)
  /\ snd (Color2PixelFormat EncodeYUV color (pf_or pf PF_BGR) (m, out) gamma)
     = snd (Color2PixelFormat EncodeYUV color pf (m, out) gamma).
Proof.
  destruct (FLAGS_or_BGR pf)
    as (Eraw & Egray & EA & EZ & Ebgr & Eas & Ezs & Eza & Einv & Epre).
  assert (Hraw' : FLAGS (pf_or pf PF_BGR) PF_RAW_COLOR = false)
    by (rewrite Eraw; exact Hraw).
  assert (Hgray' : FLAGS (pf_or pf PF_BGR) PF_GRAY = false)
    by (rewrite Egray; exact Hgray).
  split; [|split].
  - intros p.
    rewrite (Color2PixelFormat_layout _ _ _ _ _ _ _ Hraw').
    rewrite (Color2PixelFormat_layout _ _ _ _ _ _ _ Hraw).
    unfold exchange_red_blue.
    destruct (Z.eqb_spec p (out + before_size pf)) as [E1 | E1];
      [| destruct (Z.eqb_spec p (out + before_size pf + 2)) as [E2 | E2]];
      revert E1; try revert E2;
      unfold pixel_byte, gray_byte, encode_rgb, encode_alpha, red_offset,
        green_offset, blue_offset, alpha_offset, before_size, color_size,
        stores_alpha;
      rewrite Egray, EA, EZ, Ebgr, Eas, Ezs, Eza, Einv, Epre, Hgray, Hbgr;
      set (ac := if FLAGS pf PF_A_INV then _ else _);
      destruct (if FLAGS pf PF_A_PREMULT then _ else _) as [[ri gi] bi];
      destruct (FLAGS pf PF_ZA), (FLAGS pf PF_Z_START),
        (FLAGS pf PF_A_START), (FLAGS pf PF_Z), (FLAGS pf PF_A);
      cbn [negb andb orb]; intros; eqb_cases; try reflexivity; exfalso; lia.
  - rewrite (decode_rgb_shape set_yuv c0 _ m out Hraw' Hgray').
    rewrite (decode_rgb_shape set_yuv c0 _ _ out Hraw Hgray).
    unfold exchange_red_blue, finish, red_offset, green_offset, blue_offset,
      alpha_offset, before_size, color_size, stores_alpha.
    rewrite Egray, EA, EZ, Ebgr, Eas, Ezs, Eza, Einv, Epre, Hgray, Hbgr.
    destruct (FLAGS pf PF_ZA), (FLAGS pf PF_Z_START), (FLAGS pf PF_A_START),
      (FLAGS pf PF_Z), (FLAGS pf PF_A);
      cbn [negb andb orb]; store_eqb; norm_addr m out; reflexivity.
  - rewrite !Color2PixelFormat_advance. unfold pixel_size.
    rewrite Eraw, Egray, EA, EZ, Eas, Ezs. reflexivity.
Qed.

Lemma bgr_exchanges_red_and_blue_witness :
  let pf := pf_or PF_A PF_A_START in
  (forall p,
      fst (Color2PixelFormat EncodeYUV_luma spec_example (pf_or pf PF_BGR)
             (mem0, 0) no_gamma) p
      = fst (Color2PixelFormat EncodeYUV_luma spec_example pf (mem0, 0)
               no_gamma) (exchange_red_blue pf 0 p))
  /\ fst (PixelFormat2Color set_yuv_gray (mkColor 0 0 0 0) (pf_or pf PF_BGR)
            mem0 0)
     = fst (PixelFormat2Color set_yuv_gray (mkColor 0 0 0 0) pf
              (fun p => mem0 (exchange_red_blue pf 0 p)) 0)
  /\ snd (Color2PixelFormat EncodeYUV_luma spec_example (pf_or pf PF_BGR)
            (mem0, 0) no_gamma)
     = snd (Color2PixelFormat EncodeYUV_luma spec_example pf (mem0, 0)
              no_gamma).
Proof.
  exact (bgr_exchanges_red_and_blue EncodeYUV_luma set_yuv_gray spec_example
           (mkColor 0 0 0 0) (pf_or PF_A PF_A_START) mem0 0 no_gamma
           eq_refl eq_refl eq_refl).
Defined.

(** X5: The codec reserves the depth slot and never fills it: under a
    descriptor that is not raw, the depth slot, when there is one, lies
    inside the pixel, holds no channel of the color and keeps the byte it
    had; and a pixel has no other padding: every other offset of the
    pixel holds the alpha, gray, red, green or blue byte. *)
Theorem depth_slot_is_reserved_only
  (EncodeYUV : Z -> Z -> ColorReal) (color : Color) (pf : PixelFormat)
  (m : memory) (out : Z) (gamma : Gamma)
  (Hraw : FLAGS pf PF_RAW_COLOR = false) :
  (has_depth pf = true ->
     0 <= depth_offset pf < pixel_size pf
     /\ pixel_byte EncodeYUV color pf gamma (depth_offset pf) = None
     /\ fst (Color2PixelFormat EncodeYUV color pf (m, out) gamma)
          (out + depth_offset pf)
        = m (out + depth_offset pf))
  /\ (forall k, 0 <= k < pixel_size pf ->
        pixel_byte EncodeYUV color pf gamma k = None ->
        has_depth pf = true /\ k = depth_offset pf).
Proof.
  assert (Hnone : has_depth pf = true ->
            0 <= depth_offset pf < pixel_size pf
            /\ pixel_byte EncodeYUV color pf gamma (depth_offset pf) = None).
  { unfold has_depth, pixel_byte, depth_offset, pixel_size, red_offset,
      green_offset, blue_offset, alpha_offset, before_size, color_size,
      stores_alpha.
    rewrite Hraw.
    destruct (encode_rgb color pf gamma) as [[ri gi] bi].
    destruct (FLAGS pf PF_GRAY); layout_cases pf;
      cbn [negb andb orb Z.eqb Z.add Pos.add Pos.succ Pos.eqb]; intros Hz;
      try discriminate Hz; (split; [lia | reflexivity]). }
  split.
  - intros Hz. destruct (Hnone Hz) as [Hin Hnb].
    split; [exact Hin|]. split; [exact Hnb|].
    rewrite (Color2PixelFormat_layout _ _ _ _ _ _ _ Hraw).
    replace (out + depth_offset pf - out) with (depth_offset pf) by lia.
    rewrite Hnb. reflexivity.
  - intros k. unfold has_depth, pixel_byte, depth_offset, pixel_size,
      red_offset, green_offset, blue_offset, alpha_offset, before_size,
      color_size, stores_alpha.
    rewrite Hraw.
    destruct (encode_rgb color pf gamma) as [[ri gi] bi].
    destruct (FLAGS pf PF_GRAY); layout_cases pf;
      cbn [negb andb orb]; eqb_cases; intros Hk H; try discriminate H;
      try (split; [reflexivity | lia]); exfalso; lia.
Qed.

Lemma depth_slot_is_reserved_only_witness :
  let pf := pf_or PF_Z (pf_or PF_A PF_ZA) in
  (has_depth pf = true ->
     0 <= depth_offset pf < pixel_size pf
     /\ pixel_byte EncodeYUV_luma spec_example pf no_gamma (depth_offset pf)
        = None
     /\ fst (Color2PixelFormat EncodeYUV_luma spec_example pf (mem0, 0)
               no_gamma) (0 + depth_offset pf)
        = mem0 (0 + depth_offset pf))
  /\ (forall k, 0 <= k < pixel_size pf ->
        pixel_byte EncodeYUV_luma spec_example pf no_gamma k = None ->
        has_depth pf = true /\ k = depth_offset pf).
Proof.
  exact (depth_slot_is_reserved_only EncodeYUV_luma spec_example
           (pf_or PF_Z (pf_or PF_A PF_ZA)) mem0 0 no_gamma eq_refl).
Defined.

(** X7: The gray byte lies between the darkest and the brightest of the
    three channels: for weights [yuv_r], [yuv_g] in [0,256] with
    [yuv_r + yuv_g <= 256] and 16-bit channel values between [lo] and
    [hi], the byte written is between [lo / 256] and [hi / 256]; a color
    with three equal channel values gets the byte each of them would get
    as a color byte.  [PF_BGR] has no effect on a gray pixel. *)
Theorem gray_byte_between_channels
  (EncodeYUV : Z -> Z -> ColorReal) (color : Color) (pf : PixelFormat)
  (m : memory) (out : Z) (gamma : Gamma) (lo hi : Z)
  (Hraw : FLAGS pf PF_RAW_COLOR = false)
  (Hgray : FLAGS pf PF_GRAY = true)
  (Hyr : 0 <= yuv_r EncodeYUV) (Hyg : 0 <= yuv_g EncodeYUV)
  (Hyb : yuv_r EncodeYUV + yuv_g EncodeYUV <= 256)
  (Hlo : 0 <= lo) (Hhi : hi <= 65535)
  (Hr : lo <= fst (fst (encode_rgb color pf gamma)) <= hi)
  (Hg : lo <= snd (fst (encode_rgb color pf gamma)) <= hi)
  (Hb : lo <= snd (encode_rgb color pf gamma) <= hi) :
  lo / 256
    <= fst (Color2PixelFormat EncodeYUV color pf (m, out) gamma)
         (out + before_size pf)
    <= hi / 256
  /\ Color2PixelFormat EncodeYUV color (pf_or pf PF_BGR) (m, out) gamma
     = Color2PixelFormat EncodeYUV color pf (m, out) gamma.
Proof.
  split.
  - rewrite (Color2PixelFormat_layout _ _ _ _ _ _ _ Hraw).
    replace (out + before_size pf - out) with (before_size pf) by lia.
    assert (Hpb : pixel_byte EncodeYUV color pf gamma (before_size pf)
                  = Some (gray_byte EncodeYUV color pf gamma)).
    { unfold pixel_byte, alpha_offset, before_size, color_size, stores_alpha.
      rewrite Hgray.
      destruct (encode_rgb color pf gamma) as [[ri gi] bi].
      layout_cases pf; cbn [negb andb orb]; eqb_cases; try reflexivity;
        exfalso; lia. }
    rewrite Hpb. unfold gray_byte, yuv_b.
    destruct (encode_rgb color pf gamma) as [[ri gi] bi].
    cbn [fst snd] in Hr, Hg, Hb.
    set (yr := yuv_r EncodeYUV) in *. set (yg := yuv_g EncodeYUV) in *.
    set (S := ri * yr + gi * yg + bi * (256 - yr - yg)).
    assert (HS : 256 * lo <= S <= 256 * hi) by (unfold S; nia).
    rewrite Z.shiftr_div_pow2 by lia. change (2 ^ 16) with (256 * 256).
    assert (Hl : lo / 256 <= S / (256 * 256)).
    { rewrite <- (Z.div_mul_cancel_l lo 256 256) by lia.
      apply Z.div_le_mono; lia. }
    assert (Hh : S / (256 * 256) <= hi / 256).
    { rewrite <- (Z.div_mul_cancel_l hi 256 256) by lia.
      apply Z.div_le_mono; lia. }
    assert (H0 : 0 <= lo / 256) by (apply Z.div_pos; lia).
    assert (H1 : hi / 256 <= 255).
    { apply Z.lt_succ_r. apply Z.div_lt_upper_bound; lia. }
    unfold uchar. rewrite Z.mod_small by lia. lia.
  - destruct (FLAGS_or_BGR pf)
      as (Eraw & Egray & EA & EZ & Ebgr & Eas & Ezs & Eza & Einv & Epre).
    unfold Color2PixelFormat, encode_rgb, encode_alpha.
    rewrite Eraw, Egray, EA, EZ, Eas, Ezs, Eza, Einv, Epre, Hraw, Hgray.
    reflexivity.
Qed.

Lemma gray_byte_between_channels_witness :
  let pf := pf_or PF_GRAY PF_A in
  let color := mkColor (real 1 2) (real 1 4) (real 3 4) (real 1 1) in
  16383 / 256
    <= fst (Color2PixelFormat EncodeYUV_luma color pf (mem0, 0) no_gamma)
         (0 + before_size pf)
    <= 49151 / 256
  /\ Color2PixelFormat EncodeYUV_luma color (pf_or pf PF_BGR) (mem0, 0)
       no_gamma
     = Color2PixelFormat EncodeYUV_luma color pf (mem0, 0) no_gamma.
Proof.
  apply (gray_byte_between_channels EncodeYUV_luma
           (mkColor (real 1 2) (real 1 4) (real 3 4) (real 1 1))
           (pf_or PF_GRAY PF_A) mem0 0 no_gamma 16383 49151);
    try reflexivity; vm_compute; first [discriminate | split; discriminate].
Defined.

Lemma in_unit_bool_spec x : in_unit_bool x = true -> in_unit x.
Proof.
  unfold in_unit_bool, in_unit. rewrite !andb_true_iff, !Qle_bool_iff.
  tauto.
Qed.

Lemma restable_table : all_below 256 restable_ok = true.
Proof. vm_compute. reflexivity. Qed.

Lemma restable_spec b :
  0 <= b <= 255 ->
  in_unit (decoded b)
  /\ 2 * (256 * b - 1) * 2 ^ 200 <= 131070 * scaled (decoded b) - 2 * 2 ^ 200
  /\ 131070 * scaled (decoded b) + 2 ^ 200 < 2 * (256 * b + 256) * 2 ^ 200
  /\ alpha8 (decoded b) = b
  /\ alpha8 (decoded_inv (255 - b)) = b.
Proof.
  intros Hb.
  pose proof (all_below_spec 256 restable_ok restable_table b ltac:(lia))
    as Hok.
  unfold restable_ok in Hok. cbv zeta in Hok.
  rewrite !andb_true_iff in Hok.
  destruct Hok as ((((Hu & H1) & H2) & H3) & H4).
  apply in_unit_bool_spec in Hu. apply Z.leb_le in H1. apply Z.ltb_lt in H2.
  apply Z.eqb_eq in H3, H4. tauto.
Qed.

Lemma color_restable f b :
  identity_curve f -> 0 <= b <= 255 ->
  uchar (Z.shiftr (f (decoded b)) 8) = b.
Proof.
  intros Hid Hb.
  destruct (restable_spec b Hb) as (Hu & H1 & H2 & _).
  destruct (identity_curve_scaled f (decoded b) Hid (decoded_fine b) Hu)
    as (HR & Hlo & Hhi).
  destruct (shift8_byte (f (decoded b)) HR) as [Hb' Hq].
  set (b' := uchar (Z.shiftr (f (decoded b)) 8)) in *.
  set (R := f (decoded b)) in *. set (Ds := scaled (decoded b)) in *.
  assert (HS : 0 < 2 ^ 200) by (apply Z.pow_pos_nonneg; lia).
  set (S := 2 ^ 200) in *.
  assert (Hge : 256 * b - 1 < R) by nia.
  assert (Hlt : R < 256 * b + 256) by nia.
  lia.
Qed.

Lemma encode_alpha_restable C C' F :
  get_a C' = (if FLAGS F PF_A_INV then decoded_inv (encode_alpha C F)
              else decoded (encode_alpha C F)) ->
  encode_alpha C' F = encode_alpha C F.
Proof.
  intros Ha. pose proof (encode_alpha_range C F) as Hn.
  rewrite (encode_alpha_eq C' F), Ha.
  destruct (FLAGS F PF_A_INV).
  - replace (encode_alpha C F) with (255 - (255 - encode_alpha C F)) at 1
      by lia.
    destruct (restable_spec (255 - encode_alpha C F) ltac:(lia))
      as (_ & _ & _ & _ & H).
    rewrite H. lia.
  - destruct (restable_spec (encode_alpha C F) Hn) as (_ & _ & _ & H & _).
    exact H.
Qed.

Lemma pixel_byte_restable EncodeYUV gamma C C' F k :
  identity_gamma gamma ->
  FLAGS F PF_GRAY = false -> FLAGS F PF_A_PREMULT = false ->
  get_r C' = decoded (uchar (Z.shiftr (r_F32_to_U16 gamma (get_r C)) 8)) ->
  get_g C' = decoded (uchar (Z.shiftr (g_F32_to_U16 gamma (get_g C)) 8)) ->
  get_b C' = decoded (uchar (Z.shiftr (b_F32_to_U16 gamma (get_b C)) 8)) ->
  (stores_alpha F = true ->
   get_a C' = if FLAGS F PF_A_INV then decoded_inv (encode_alpha C F)
              else decoded (encode_alpha C F)) ->
  pixel_byte EncodeYUV C' F gamma k = pixel_byte EncodeYUV C F gamma k.
Proof.
  intros (Hcr & Hcg & Hcb) Hgray Hpre Er Eg Eb Ea.
  unfold pixel_byte, encode_rgb. rewrite Hpre, Hgray.
  rewrite Er, Eg, Eb.
  rewrite !color_restable by (assumption || apply uchar_range).
  destruct (stores_alpha F) eqn:Hsa; [|reflexivity].
  rewrite (encode_alpha_restable C C' F (Ea eq_refl)). reflexivity.
Qed.

(** X10: Encoding a decoded pixel again gives the bytes it was decoded from:
    for an RGB or BGR descriptor without premultiplication and an
    identity gamma, the decoder's result for any encoded pixel is encoded
    as the same bytes, whatever the color first encoded was; and decoding
    those gives the same color again. *)
Theorem reencoding_is_stable
  (EncodeYUV : Z -> Z -> ColorReal)
  (set_yuv : Color -> ColorReal -> ColorReal -> ColorReal -> Color)
  (gamma : Gamma) (C c0 : Color) (F : PixelFormat) (m : memory) (out : Z)
  (Hgamma : identity_gamma gamma)
  (Hraw : FLAGS F PF_RAW_COLOR = false)
  (Hgray : FLAGS F PF_GRAY = false)
  (Hpre : FLAGS F PF_A_PREMULT = false) :
  let m1 := fst (Color2PixelFormat EncodeYUV C F (m, out) gamma) in
  let C' := fst (PixelFormat2Color set_yuv c0 F m1 out) in
  let m2 := fst (Color2PixelFormat EncodeYUV C' F (m1, out) gamma) in
  (forall p, m2 p = m1 p)
  /\ fst (PixelFormat2Color set_yuv c0 F m2 out) = C'.
Proof.
  intros m1 C' m2.
  destruct (straight_roundtrip_channels EncodeYUV set_yuv gamma C c0 F m
              out Hraw Hgray Hpre) as (Er & Eg & Eb & Ea).
  assert (Hm : forall p, m2 p = m1 p).
  { intros p.
    pose proof (Color2PixelFormat_layout EncodeYUV C' F m1 out gamma p Hraw)
      as H2.
    pose proof (Color2PixelFormat_layout EncodeYUV C F m out gamma p Hraw)
      as H1.
    rewrite (pixel_byte_restable EncodeYUV gamma C C' F (p - out) Hgamma
               Hgray Hpre Er Eg Eb Ea) in H2.
    destruct (pixel_byte EncodeYUV C F gamma (p - out)) as [v|].
    - exact (eq_trans H2 (eq_sym H1)).
    - exact H2. }
  split; [exact Hm|].
  exact (f_equal fst (PixelFormat2Color_ext set_yuv c0 F m2 m1 out
                        (fun p _ => Hm p))).
Qed.

Lemma reencoding_is_stable_witness :
  let F := pf_or PF_BGR (pf_or PF_A PF_A_INV) in
  let m1 :=
    fst (Color2PixelFormat EncodeYUV_luma spec_example F (mem0, 0) no_gamma) in
  let C' := fst (PixelFormat2Color set_yuv_gray (mkColor 0 0 0 0) F m1 0) in
  let m2 := fst (Color2PixelFormat EncodeYUV_luma C' F (m1, 0) no_gamma) in
  (forall p, m2 p = m1 p)
  /\ fst (PixelFormat2Color set_yuv_gray (mkColor 0 0 0 0) F m2 0) = C'.
Proof.
  exact (reencoding_is_stable EncodeYUV_luma set_yuv_gray no_gamma
           spec_example (mkColor 0 0 0 0)
           (pf_or PF_BGR (pf_or PF_A PF_A_INV)) mem0 0
           no_gamma_identity eq_refl eq_refl eq_refl).
Defined.

(** X11: The decoder reads the bytes of its pixel only: two memories that
    agree from the cursor up to the cursor returned give the same color
    and the same cursor. *)
Theorem decoder_reads_only_its_pixel
  (set_yuv : Color -> ColorReal -> ColorReal -> ColorReal -> Color)
  (c0 : Color) (pf : PixelFormat) (m m' : memory) (in_ : Z)
  (Hm : forall p,
      in_ <= p < snd (PixelFormat2Color set_yuv c0 pf m in_) ->
      m p = m' p) :
  PixelFormat2Color set_yuv c0 pf m in_
  = PixelFormat2Color set_yuv c0 pf m' in_.
Proof.
  apply PixelFormat2Color_ext. intros p Hp. apply Hm.
  rewrite PixelFormat2Color_advance. exact Hp.
Qed.

Lemma decoder_reads_only_its_pixel_witness :
  PixelFormat2Color set_yuv_gray (mkColor 0 0 0 0) (pf_or PF_A PF_BGR)
    mem0 0
  = PixelFormat2Color set_yuv_gray (mkColor 0 0 0 0) (pf_or PF_A PF_BGR)
      (store mem0 4 200) 0.
Proof.
  apply (decoder_reads_only_its_pixel set_yuv_gray (mkColor 0 0 0 0)
           (pf_or PF_A PF_BGR) mem0 (store mem0 4 200) 0).
  intros p Hp. rewrite PixelFormat2Color_advance in Hp.
  change (pixel_size (pf_or PF_A PF_BGR)) with 4 in Hp.
  unfold store. replace (p =? 4) with false; [reflexivity|].
  symmetry. apply Z.eqb_neq. lia.
Defined.

(** X12: What the decoder takes from the color it is given: nothing when the
    descriptor is raw or the RGB or BGR layout stores alpha; otherwise,
    for an RGB or BGR layout, only the alpha, which it keeps (inverted
    under [PF_A_INV]) when there is no premultiplication. *)
Theorem decoder_overwrites_color
  (set_yuv : Color -> ColorReal -> ColorReal -> ColorReal -> Color)
  (pf : PixelFormat) (m : memory) (in_ : Z)
  (Hrgb : FLAGS pf PF_RAW_COLOR = true \/ FLAGS pf PF_GRAY = false) :
  (FLAGS pf PF_RAW_COLOR || stores_alpha pf = true ->
     forall c0 c0',
       PixelFormat2Color set_yuv c0 pf m in_
       = PixelFormat2Color set_yuv c0' pf m in_)
  /\ (FLAGS pf PF_RAW_COLOR || stores_alpha pf = false ->
      (forall c0 c0',
          a_ c0 = a_ c0' ->
          PixelFormat2Color set_yuv c0 pf m in_
          = PixelFormat2Color set_yuv c0' pf m in_)
      /\ (FLAGS pf PF_A_PREMULT = false ->
          forall c0,
            a_ (fst (PixelFormat2Color set_yuv c0 pf m in_))
            = if FLAGS pf PF_A_INV
              then F32.to_bits (F32.sub F32.one (get_a c0))
              else a_ c0)).
Proof.
  destruct (FLAGS pf PF_RAW_COLOR) eqn:Hraw.
  - split; [|intros H; discriminate H].
    intros _ c0 c0'. rewrite !PixelFormat2Color_raw by exact Hraw.
    reflexivity.
  - destruct Hrgb as [Hrgb | Hgray]; [discriminate Hrgb|].
    cbn [orb].
    assert (Hpair : forall c0,
      PixelFormat2Color set_yuv c0 pf m in_
      = (fst (PixelFormat2Color set_yuv c0 pf m in_), in_ + pixel_size pf)).
    { intros c0. rewrite <- PixelFormat2Color_advance with (set_yuv := set_yuv)
        (color := c0) (m := m). apply surjective_pairing. }
    split.
    + intros Hsa c0 c0'. rewrite (Hpair c0), (Hpair c0').
      rewrite !decode_rgb_shape by assumption. rewrite Hsa. reflexivity.
    + intros Hsa. split.
      * intros c0 c0' Ha. rewrite (Hpair c0), (Hpair c0').
        rewrite !decode_rgb_shape by assumption. rewrite Hsa, Ha.
        reflexivity.
      * intros Hpre c0. rewrite decode_rgb_shape by assumption.
        rewrite (finish_straight pf _ Hpre). rewrite Hsa. cbn [a_].
        reflexivity.
Qed.

Lemma decoder_overwrites_color_witness :
  let pf := pf_or PF_A PF_BGR in
  (FLAGS pf PF_RAW_COLOR || stores_alpha pf = true ->
     forall c0 c0',
       PixelFormat2Color set_yuv_gray c0 pf mem0 0
       = PixelFormat2Color set_yuv_gray c0' pf mem0 0)
  /\ (FLAGS pf PF_RAW_COLOR || stores_alpha pf = false ->
      (forall c0 c0',
          a_ c0 = a_ c0' ->
          PixelFormat2Color set_yuv_gray c0 pf mem0 0
          = PixelFormat2Color set_yuv_gray c0' pf mem0 0)
      /\ (FLAGS pf PF_A_PREMULT = false ->
          forall c0,
            a_ (fst (PixelFormat2Color set_yuv_gray c0 pf mem0 0))
            = if FLAGS pf PF_A_INV
              then F32.to_bits (F32.sub F32.one (get_a c0))
              else a_ c0)).
Proof.
  apply (decoder_overwrites_color set_yuv_gray (pf_or PF_A PF_BGR) mem0 0).
  right. reflexivity.
Defined.

Lemma identity_curve_unit_ends f x :
  identity_curve f -> canonical32 x -> in_unit x ->
  ((F32.to_Q x == 0)%Q -> uchar (Z.shiftr (f x) 8) = 0)
  /\ ((F32.to_Q x == 1)%Q -> uchar (Z.shiftr (f x) 8) = 255).
Proof.
  intros Hid Hc Hu. pose proof (canonical32_fine x Hc) as Hf.
  destruct (identity_curve_scaled f x Hid Hf Hu) as (HR & Hlo & Hhi).
  pose proof (to_Q_S200 x Hf) as Ex.
  assert (HS : 0 < 2 ^ 200) by (apply Z.pow_pos_nonneg; lia).
  split; intros Hq; rewrite Hq in Ex.
  - assert (Hs : scaled x = 0).
    { apply inject_Z_injective. rewrite <- Ex. reflexivity. }
    rewrite Hs in Hlo, Hhi.
    assert (E : f x = 0) by nia. rewrite E. reflexivity.
  - assert (Hs : scaled x = 2 ^ 200).
    { apply inject_Z_injective. rewrite <- Ex. reflexivity. }
    rewrite Hs in Hlo, Hhi.
    assert (E : f x = 65535) by nia. rewrite E. reflexivity.
Qed.

(** X13: The ends of the range survive the round trip exactly: through an RGB
    or BGR layout without premultiplication and an identity gamma, a
    channel that is 0 comes back as +0 and a channel that is 1 comes back
    as 1; so does the alpha when the layout stores it, inverted or not. *)
Theorem extremes_roundtrip_exactly
  (EncodeYUV : Z -> Z -> ColorReal)
  (set_yuv : Color -> ColorReal -> ColorReal -> ColorReal -> Color)
  (gamma : Gamma) (C c0 : Color) (F : PixelFormat) (m : memory) (out : Z)
  (Hgamma : identity_gamma gamma) (Hunit : unit_Color C)
  (Hraw : FLAGS F PF_RAW_COLOR = false)
  (Hgray : FLAGS F PF_GRAY = false)
  (Hpre : FLAGS F PF_A_PREMULT = false) :
  let C' :=
    fst (PixelFormat2Color set_yuv c0 F
           (fst (Color2PixelFormat EncodeYUV C F (m, out) gamma)) out) in
  (((F32.to_Q (get_r C) == 0)%Q -> get_r C' = F32.zero)
   /\ ((F32.to_Q (get_r C) == 1)%Q -> get_r C' = F32.one))
  /\ (((F32.to_Q (get_g C) == 0)%Q -> get_g C' = F32.zero)
      /\ ((F32.to_Q (get_g C) == 1)%Q -> get_g C' = F32.one))
  /\ (((F32.to_Q (get_b C) == 0)%Q -> get_b C' = F32.zero)
      /\ ((F32.to_Q (get_b C) == 1)%Q -> get_b C' = F32.one))
  /\ (stores_alpha F = true ->
      ((F32.to_Q (get_a C) == 0)%Q -> get_a C' = F32.zero)
      /\ ((F32.to_Q (get_a C) == 1)%Q -> get_a C' = F32.one)).
Proof.
  intros C'.
  destruct (straight_roundtrip_channels EncodeYUV set_yuv gamma C c0 F m
              out Hraw Hgray Hpre) as (Er & Eg & Eb & Ea).
  fold C' in Er, Eg, Eb, Ea.
  destruct Hgamma as (Hcr & Hcg & Hcb).
  destruct Hunit as (Hur & Hug & Hub & Hua).
  destruct (identity_curve_unit_ends _ _ Hcr (of_bits_canonical (r_ C)) Hur)
    as [Hr0 Hr1].
  destruct (identity_curve_unit_ends _ _ Hcg (of_bits_canonical (g_ C)) Hug)
    as [Hg0 Hg1].
  destruct (identity_curve_unit_ends _ _ Hcb (of_bits_canonical (b_ C)) Hub)
    as [Hb0 Hb1].
  destruct (alpha8_ends _ (of_bits_canonical (a_ C)) Hua) as [Ha0 Ha1].
  fold (get_r C) in Hr0, Hr1. fold (get_g C) in Hg0, Hg1.
  fold (get_b C) in Hb0, Hb1. fold (get_a C) in Ha0, Ha1.
  split; [|split; [|split]].
  - rewrite Er. split; intros H;
      [rewrite (Hr0 H) | rewrite (Hr1 H)]; reflexivity.
  - rewrite Eg. split; intros H;
      [rewrite (Hg0 H) | rewrite (Hg1 H)]; reflexivity.
  - rewrite Eb. split; intros H;
      [rewrite (Hb0 H) | rewrite (Hb1 H)]; reflexivity.
  - intros Hsa. rewrite (Ea Hsa), encode_alpha_eq.
    destruct (FLAGS F PF_A_INV); split; intros H;
      [rewrite (Ha0 H) | rewrite (Ha1 H) | rewrite (Ha0 H) | rewrite (Ha1 H)];
      reflexivity.
Qed.

Lemma extremes_roundtrip_exactly_witness :
  let F := pf_or PF_A PF_A_INV in
  let C := mkColor (real 1 1) (real 0 1) (real 0 1) (real 1 1) in
  let C' :=
    fst (PixelFormat2Color set_yuv_gray (mkColor 0 0 0 0) F
           (fst (Color2PixelFormat EncodeYUV_luma C F (mem0, 0) no_gamma))
           0) in
  (((F32.to_Q (get_r C) == 0)%Q -> get_r C' = F32.zero)
   /\ ((F32.to_Q (get_r C) == 1)%Q -> get_r C' = F32.one))
  /\ (((F32.to_Q (get_g C) == 0)%Q -> get_g C' = F32.zero)
      /\ ((F32.to_Q (get_g C) == 1)%Q -> get_g C' = F32.one))
  /\ (((F32.to_Q (get_b C) == 0)%Q -> get_b C' = F32.zero)
      /\ ((F32.to_Q (get_b C) == 1)%Q -> get_b C' = F32.one))
  /\ (stores_alpha F = true ->
      ((F32.to_Q (get_a C) == 0)%Q -> get_a C' = F32.zero)
      /\ ((F32.to_Q (get_a C) == 1)%Q -> get_a C' = F32.one)).
Proof.
  refine (extremes_roundtrip_exactly EncodeYUV_luma set_yuv_gray no_gamma
            (mkColor (real 1 1) (real 0 1) (real 0 1) (real 1 1))
            (mkColor 0 0 0 0) (pf_or PF_A PF_A_INV) mem0 0
            no_gamma_identity _ eq_refl eq_refl eq_refl).
  split; [|split; [|split]]; unit_by_computation.
Defined.

Lemma identity_U16_range x : 0 <= identity_U16 x <= 65535.
Proof. unfold identity_U16. destruct (F32.is_finite x); lia. Qed.

Lemma no_gamma_U16 : U16_gamma no_gamma.
Proof. intros x. cbn. pose proof (identity_U16_range x). lia. Qed.

Lemma premult_byte_le R n :
  0 <= R <= 65535 -> 0 <= n <= 255 ->
  0 <= uchar (Z.shiftr (Z.shiftr (R * (n + 1)) 8) 8) <= n.
Proof. intros HR Hn. apply (premult_byte R n HR Hn). Qed.

Lemma clamp01_high x :
  canonical32 x -> 2 ^ 200 <= scaled x -> clamp01 x = F32.one.
Proof.
  intros Hc Hs.
  assert (HS : 0 < 2 ^ 200) by (apply Z.pow_pos_nonneg; lia).
  destruct x as [s | s | | s m e]; cbn [scaled] in Hs; try lia.
  cbn [canonical32] in Hc. destruct Hc as (Hm & He & Hn).
  assert (Hp : 0 < 2 ^ (e + 200)) by (apply Z.pow_pos_nonneg; lia).
  destruct s; cbn [cond_Zopp] in Hs; [nia|].
  unfold clamp01, F32.min, F32.max, F32.ltb, SFltb.
  cbn [SFcompare F32.one].
  destruct (e ?= -23) eqn:Hcmp.
  - apply Z.compare_eq in Hcmp. subst e.
    destruct (Pos.compare_cont Eq m 8388608) eqn:Hm2; cbn; try reflexivity.
    exfalso. assert (Hlt := proj1 (Pos.compare_lt_iff m 8388608) Hm2).
    clear Hm2. apply Pos2Z.pos_lt_pos in Hlt.
    change (-23 + 200) with 177 in Hs.
    change (2 ^ 200) with (8388608 * 2 ^ 177) in Hs.
    assert (0 < 2 ^ 177) by (apply Z.pow_pos_nonneg; lia). nia.
  - exfalso. rewrite Z.compare_lt_iff in Hcmp.
    assert (Hle : 2 ^ (e + 200) <= 2 ^ 176) by (apply Z.pow_le_mono_r; lia).
    change (2 ^ 200) with (2 ^ 24 * 2 ^ 176) in Hs.
    assert (0 < 2 ^ 176) by (apply Z.pow_pos_nonneg; lia).
    change (2 ^ 24) with 16777216 in Hs, Hm. nia.
  - reflexivity.
Qed.

Lemma clamp01_low x :
  canonical32 x -> F32.is_finite x = true -> scaled x <= 0 ->
  clamp01 x = F32.zero.
Proof.
  intros Hc Hfin Hs.
  destruct x as [s | s | | s m e]; try discriminate Hfin.
  - destruct s; reflexivity.
  - destruct s; [reflexivity|]. exfalso. cbn [scaled cond_Zopp] in Hs.
    cbn [canonical32] in Hc.
    assert (Hp : 0 < 2 ^ (e + 200)) by (apply Z.pow_pos_nonneg; lia). nia.
Qed.

Lemma scaled_of_Q x :
  fine x ->
  ((1 <= F32.to_Q x)%Q -> 2 ^ 200 <= scaled x)
  /\ ((F32.to_Q x <= 0)%Q -> scaled x <= 0).
Proof.
  intros Hf. pose proof (to_Q_S200 x Hf) as Ex. rewrite S200_Z in Ex.
  assert (HS : (0 < inject_Z (2 ^ 200))%Q).
  { change 0%Q with (inject_Z 0). rewrite <- Zlt_Qlt.
    apply Z.pow_pos_nonneg; lia. }
  split; intros H.
  - rewrite Zle_Qle, <- Ex.
    rewrite <- (Qmult_1_l (inject_Z (2 ^ 200))) at 1.
    apply Qmult_le_compat_r; [exact H | apply Qlt_le_weak; exact HS].
  - rewrite Zle_Qle, <- Ex. change (inject_Z 0) with 0%Q.
    rewrite <- (Qmult_0_l (inject_Z (2 ^ 200))).
    apply Qmult_le_compat_r; [exact H | apply Qlt_le_weak; exact HS].
Qed.

Lemma alpha8_saturates x :
  canonical32 x ->
  (x = S754_nan -> alpha8 x = 255)
  /\ (x = S754_infinity false -> alpha8 x = 255)
  /\ (F32.is_finite x = true -> (1 <= F32.to_Q x)%Q -> alpha8 x = 255)
  /\ (x = S754_infinity true -> alpha8 x = 0)
  /\ (F32.is_finite x = true -> (F32.to_Q x <= 0)%Q -> alpha8 x = 0).
Proof.
  intros Hc.
  destruct (scaled_of_Q x (canonical32_fine x Hc)) as [Hhi Hlo].
  assert (Htop : clamp01 x = F32.one -> alpha8 x = 255).
  { intros E. unfold alpha8. rewrite E. reflexivity. }
  assert (Hbot : clamp01 x = F32.zero -> alpha8 x = 0).
  { intros E. unfold alpha8. rewrite E. reflexivity. }
  split; [|split; [|split; [|split]]].
  - intros E. subst x. reflexivity.
  - intros E. subst x. reflexivity.
  - intros _ H. apply Htop. apply clamp01_high; auto.
  - intros E. subst x. reflexivity.
  - intros Hfin H. apply Hbot. apply clamp01_low; auto.
Qed.

(** X14: The alpha byte saturates: an alpha that is not below 1 (a number of
    at least 1, +infinity, or a NaN, which [std::min] and [std::max] turn
    into 1) is stored as 255, and an alpha that is not above 0 (zero of
    either sign, a negative number, -infinity) as 0; under [PF_A_INV] the
    two bytes change places. *)
Theorem alpha_byte_saturates :
  forall (color : Color) (pf : PixelFormat),
    (get_a color = S754_nan ->
     encode_alpha color pf = if FLAGS pf PF_A_INV then 0 else 255)
    /\ (get_a color = S754_infinity false ->
        encode_alpha color pf = if FLAGS pf PF_A_INV then 0 else 255)
    /\ (F32.is_finite (get_a color) = true ->
        (1 <= F32.to_Q (get_a color))%Q ->
        encode_alpha color pf = if FLAGS pf PF_A_INV then 0 else 255)
    /\ (get_a color = S754_infinity true ->
        encode_alpha color pf = if FLAGS pf PF_A_INV then 255 else 0)
    /\ (F32.is_finite (get_a color) = true ->
        (F32.to_Q (get_a color) <= 0)%Q ->
        encode_alpha color pf = if FLAGS pf PF_A_INV then 255 else 0).
Proof.
  intros color pf. rewrite encode_alpha_eq.
  destruct (alpha8_saturates (get_a color) (of_bits_canonical (a_ color)))
    as (H1 & H2 & H3 & H4 & H5).
  split; [|split; [|split; [|split]]].
  - intros E. rewrite (H1 E). destruct (FLAGS pf PF_A_INV); reflexivity.
  - intros E. rewrite (H2 E). destruct (FLAGS pf PF_A_INV); reflexivity.
  - intros Hf E. rewrite (H3 Hf E). destruct (FLAGS pf PF_A_INV); reflexivity.
  - intros E. rewrite (H4 E). destruct (FLAGS pf PF_A_INV); reflexivity.
  - intros Hf E. rewrite (H5 Hf E). destruct (FLAGS pf PF_A_INV); reflexivity.
Qed.

(** X15: Premultiplication scales by the alpha byte as it is stored: under
    [PF_A_PREMULT] (RGB or BGR, 16-bit curves) no color byte exceeds the
    alpha byte, inverted or not.  So under [PF_A_INV] an opaque color,
    whose alpha byte is 0, is written with three color bytes 0. *)
Theorem premultiplied_bytes_at_most_alpha
  (EncodeYUV : Z -> Z -> ColorReal) (color : Color) (pf : PixelFormat)
  (m : memory) (out : Z) (gamma : Gamma)
  (Hgamma : U16_gamma gamma)
  (Hraw : FLAGS pf PF_RAW_COLOR = false)
  (Hgray : FLAGS pf PF_GRAY = false)
  (Hpre : FLAGS pf PF_A_PREMULT = true) :
  let enc := fst (Color2PixelFormat EncodeYUV color pf (m, out) gamma) in
  (0 <= enc (out + red_offset pf) <= encode_alpha color pf
   /\ 0 <= enc (out + green_offset pf) <= encode_alpha color pf
   /\ 0 <= enc (out + blue_offset pf) <= encode_alpha color pf)
  /\ (FLAGS pf PF_A_INV = true -> in_unit (get_a color) ->
      (F32.to_Q (get_a color) == 1)%Q ->
      encode_alpha color pf = 0
      /\ enc (out + red_offset pf) = 0
      /\ enc (out + green_offset pf) = 0
      /\ enc (out + blue_offset pf) = 0).
Proof.
  intros enc.
  destruct (encode_rgb_bytes EncodeYUV color pf m out gamma Hraw Hgray)
    as (Er & Eg & Eb & _).
  fold enc in Er, Eg, Eb.
  pose proof (encode_alpha_range color pf) as Hn.
  assert (Hle : 0 <= enc (out + red_offset pf) <= encode_alpha color pf
                /\ 0 <= enc (out + green_offset pf) <= encode_alpha color pf
                /\ 0 <= enc (out + blue_offset pf) <= encode_alpha color pf).
  { rewrite Er, Eg, Eb. unfold encode_rgb. rewrite Hpre. cbn [fst snd].
    destruct (Hgamma (get_r color)) as (Hr & _).
    destruct (Hgamma (get_g color)) as (_ & Hg & _).
    destruct (Hgamma (get_b color)) as (_ & _ & Hb).
    split; [|split]; apply premult_byte_le; assumption. }
  split; [exact Hle|].
  intros Hinv Hu Hq.
  assert (E : encode_alpha color pf = 0).
  { rewrite encode_alpha_eq, Hinv.
    destruct (alpha8_ends _ (of_bits_canonical (a_ color)) Hu) as [_ H1].
    fold (get_a color) in H1. rewrite (H1 Hq). reflexivity. }
  rewrite E in Hle. split; [exact E|]. lia.
Qed.

Lemma premultiplied_bytes_at_most_alpha_witness :
  let pf := pf_or PF_A (pf_or PF_A_INV PF_A_PREMULT) in
  let enc :=
    fst (Color2PixelFormat EncodeYUV_luma spec_example pf (mem0, 0)
           no_gamma) in
  (0 <= enc (0 + red_offset pf) <= encode_alpha spec_example pf
   /\ 0 <= enc (0 + green_offset pf) <= encode_alpha spec_example pf
   /\ 0 <= enc (0 + blue_offset pf) <= encode_alpha spec_example pf)
  /\ (FLAGS pf PF_A_INV = true -> in_unit (get_a spec_example) ->
      (F32.to_Q (get_a spec_example) == 1)%Q ->
      encode_alpha spec_example pf = 0
      /\ enc (0 + red_offset pf) = 0
      /\ enc (0 + green_offset pf) = 0
      /\ enc (0 + blue_offset pf) = 0).
Proof.
  exact (premultiplied_bytes_at_most_alpha EncodeYUV_luma spec_example
           (pf_or PF_A (pf_or PF_A_INV PF_A_PREMULT)) mem0 0 no_gamma
           no_gamma_U16 eq_refl eq_refl eq_refl).
Defined.

Lemma FLAGS_or_PREMULT pf :
  FLAGS (pf_or pf PF_A_PREMULT) PF_RAW_COLOR = FLAGS pf PF_RAW_COLOR
  /\ FLAGS (pf_or pf PF_A_PREMULT) PF_GRAY = FLAGS pf PF_GRAY
  /\ FLAGS (pf_or pf PF_A_PREMULT) PF_A = FLAGS pf PF_A
  /\ FLAGS (pf_or pf PF_A_PREMULT) PF_Z = FLAGS pf PF_Z
  /\ FLAGS (pf_or pf PF_A_PREMULT) PF_BGR = FLAGS pf PF_BGR
  /\ FLAGS (pf_or pf PF_A_PREMULT) PF_A_START = FLAGS pf PF_A_START
  /\ FLAGS (pf_or pf PF_A_PREMULT) PF_Z_START = FLAGS pf PF_Z_START
  /\ FLAGS (pf_or pf PF_A_PREMULT) PF_ZA = FLAGS pf PF_ZA
  /\ FLAGS (pf_or pf PF_A_PREMULT) PF_A_INV = FLAGS pf PF_A_INV
  /\ FLAGS (pf_or pf PF_A_PREMULT) PF_A_PREMULT = true.
Proof.
  autorewrite with flags. unfold PF_A_PREMULT.
  rewrite !testbit_or_bit by lia. cbn [Z.eqb Pos.eqb orb].
  rewrite !orb_false_r, ?orb_true_r. repeat split; reflexivity.
Qed.

(** X16: For a color whose alpha byte is 255, premultiplication changes
    nothing: the encoder writes under [pf | PF_A_PREMULT] the bytes it
    writes under [pf]. *)
Theorem premultiplied_opaque_is_straight
  (EncodeYUV : Z -> Z -> ColorReal) (color : Color) (pf : PixelFormat)
  (m : memory) (out : Z) (gamma : Gamma)
  (Hpre : FLAGS pf PF_A_PREMULT = false)
  (Hopaque : encode_alpha color pf = 255) :
  (forall p,
      fst (Color2PixelFormat EncodeYUV color (pf_or pf PF_A_PREMULT) (m, out)
             gamma) p
      = fst (Color2PixelFormat EncodeYUV color pf (m, out) gamma) p)
  /\ snd (Color2PixelFormat EncodeYUV color (pf_or pf PF_A_PREMULT) (m, out)
            gamma)
     = snd (Color2PixelFormat EncodeYUV color pf (m, out) gamma).
Proof.
  destruct (FLAGS_or_PREMULT pf)
    as (Eraw & Egray & EA & EZ & Ebgr & Eas & Ezs & Eza & Einv & Epre).
  assert (Hac : encode_alpha color (pf_or pf PF_A_PREMULT) = 255).
  { rewrite <- Hopaque. unfold encode_alpha. rewrite Einv. reflexivity. }
  assert (Hrgb : encode_rgb color (pf_or pf PF_A_PREMULT) gamma
                 = encode_rgb color pf gamma).
  { unfold encode_rgb. rewrite Epre, Hpre, Hac.
    change (255 + 1) with (2 ^ 8). rewrite !Z.shiftr_div_pow2 by lia.
    rewrite !Z.div_mul by lia. reflexivity. }
  split.
  - intros p. destruct (FLAGS pf PF_RAW_COLOR) eqn:Hraw.
    + rewrite !Color2PixelFormat_raw by congruence. reflexivity.
    + rewrite (Color2PixelFormat_layout _ _ _ _ _ _ _ Eraw).
      rewrite (Color2PixelFormat_layout _ _ _ _ _ _ _ Hraw).
      unfold pixel_byte, gray_byte. rewrite Hrgb, Hac, Hopaque.
      unfold red_offset, green_offset, blue_offset, alpha_offset,
        before_size, color_size, stores_alpha.
      rewrite Egray, EA, EZ, Ebgr, Eas, Ezs, Eza. reflexivity.
  - rewrite !Color2PixelFormat_advance. unfold pixel_size.
    rewrite Eraw, Egray, EA, EZ, Eas, Ezs. reflexivity.
Qed.

Lemma premultiplied_opaque_is_straight_witness :
  (forall p,
      fst (Color2PixelFormat EncodeYUV_luma spec_example
             (pf_or PF_A PF_A_PREMULT) (mem0, 0) no_gamma) p
      = fst (Color2PixelFormat EncodeYUV_luma spec_example PF_A (mem0, 0)
               no_gamma) p)
  /\ snd (Color2PixelFormat EncodeYUV_luma spec_example
            (pf_or PF_A PF_A_PREMULT) (mem0, 0) no_gamma)
     = snd (Color2PixelFormat EncodeYUV_luma spec_example PF_A (mem0, 0)
              no_gamma).
Proof.
  exact (premultiplied_opaque_is_straight EncodeYUV_luma spec_example PF_A
           mem0 0 no_gamma eq_refl eq_refl).
Defined.

(* ================================================================== *)
(** ** The links of ValueNode_SegCalcVertex *)

(** C10: [link_count] is 2; [get_link_index_from_name] sends "segment" to
    0 and "amount" to 1, so it inverts [link_name] on the indices 0 and
    1; every other name makes it throw [BadLinkName] with that name. *)
Theorem link_names_roundtrip :
  SegCalcVertex.link_count = 2
  /\ (forall i, 0 <= i < SegCalcVertex.link_count ->
        exists name,
          SegCalcVertex.link_name i = SegCalcVertex.Return name
          /\ SegCalcVertex.get_link_index_from_name name
             = SegCalcVertex.Return i)
  /\ SegCalcVertex.get_link_index_from_name "segment"
     = SegCalcVertex.Return 0
  /\ SegCalcVertex.get_link_index_from_name "amount"
     = SegCalcVertex.Return 1
  /\ (forall name,
        name <> "segment"%string -> name <> "amount"%string ->
        SegCalcVertex.get_link_index_from_name name
        = SegCalcVertex.Throw (SegCalcVertex.BadLinkName name)).
Proof.
  split; [reflexivity|]. split; [|split; [reflexivity | split; [reflexivity|]]].
  - intros i Hi. unfold SegCalcVertex.link_count in Hi.
    assert (Hc : i = 0 \/ i = 1) by lia.
    destruct Hc as [-> | ->].
    + exists "segment"%string. split; reflexivity.
    + exists "amount"%string. split; reflexivity.
  - intros name Hs Ha. unfold SegCalcVertex.get_link_index_from_name.
    destruct (String.eqb_spec name "segment") as [E | _]; [contradiction|].
    destruct (String.eqb_spec name "amount") as [E | _]; [contradiction|].
    reflexivity.
Qed.

(** X17: setting link [i] of a node, [i] an index below [link_count],
    succeeds, makes [get_link_vfunc] return the handle given for [i],
    leaves the other link as it was, and emits [child_changed i] and then
    [value_changed], nothing else; any other index fails the assertion
    of both functions. *)
Theorem set_link_then_get_link :
  forall (Handle : Type) (null : Handle) (n : SegCalcVertex.node Handle)
         (i : Z) (x : Handle),
    (0 <= i < SegCalcVertex.link_count ->
     exists n',
       SegCalcVertex.set_link_vfunc n i x = SegCalcVertex.Return (n', true)
       /\ SegCalcVertex.get_link_vfunc null n' i = SegCalcVertex.Return x
       /\ SegCalcVertex.get_link_vfunc null n' (1 - i)
          = SegCalcVertex.get_link_vfunc null n (1 - i)
       /\ SegCalcVertex.emitted n'
          = SegCalcVertex.emitted n
            ++ [SegCalcVertex.child_changed i; SegCalcVertex.value_changed])
    /\ (~ 0 <= i < SegCalcVertex.link_count ->
        SegCalcVertex.set_link_vfunc n i x = SegCalcVertex.AssertionFailed
        /\ SegCalcVertex.get_link_vfunc null n i
           = SegCalcVertex.AssertionFailed).
Proof.
  intros Handle null n i x. unfold SegCalcVertex.link_count. split.
  - intros Hi. assert (Hc : i = 0 \/ i = 1) by lia.
    destruct Hc as [-> | ->]; eexists; (split; [reflexivity|]);
      repeat split; reflexivity.
  - intros Hi.
    unfold SegCalcVertex.set_link_vfunc, SegCalcVertex.get_link_vfunc.
    replace (i =? 0) with false by (symmetry; apply Z.eqb_neq; lia).
    replace (i =? 1) with false by (symmetry; apply Z.eqb_neq; lia).
    split; reflexivity.
Qed.

(** X18: an index that [get_link_index_from_name] returns is a link
    index, below [link_count], and [link_name] gives the name back; the
    names of the links are different and none is empty. *)
Theorem link_index_of_name
  (name : string) (i : Z)
  (H : SegCalcVertex.get_link_index_from_name name = SegCalcVertex.Return i) :
  0 <= i < SegCalcVertex.link_count
  /\ SegCalcVertex.link_name i = SegCalcVertex.Return name
  /\ name <> EmptyString
  /\ forall j name',
      SegCalcVertex.link_name j = SegCalcVertex.Return name' ->
      (name' = name <-> j = i).
Proof.
  unfold SegCalcVertex.get_link_index_from_name in H.
  destruct (String.eqb_spec name "segment") as [E | _].
  - injection H as <-. subst name. unfold SegCalcVertex.link_count.
    split; [lia|]. split; [reflexivity|]. split; [discriminate|].
    intros j name' Hj. unfold SegCalcVertex.link_name in Hj.
    destruct (Z.eqb_spec j 0) as [-> | Hj0].
    + cbn in Hj. injection Hj as <-. tauto.
    + destruct (Z.eqb_spec j 1) as [-> | Hj1]; cbn in Hj.
      * injection Hj as <-. split; [discriminate | lia].
      * discriminate Hj.
  - destruct (String.eqb_spec name "amount") as [E | _]; [|discriminate H].
    injection H as <-. subst name. unfold SegCalcVertex.link_count.
    split; [lia|]. split; [reflexivity|]. split; [discriminate|].
    intros j name' Hj. unfold SegCalcVertex.link_name in Hj.
    destruct (Z.eqb_spec j 0) as [-> | Hj0].
    + cbn in Hj. injection Hj as <-. split; [discriminate | lia].
    + destruct (Z.eqb_spec j 1) as [-> | Hj1]; cbn in Hj.
      * injection Hj as <-. tauto.
      * discriminate Hj.
Qed.

Lemma link_index_of_name_witness :
  0 <= 1 < SegCalcVertex.link_count
  /\ SegCalcVertex.link_name 1 = SegCalcVertex.Return "amount"%string
  /\ "amount"%string <> EmptyString
  /\ forall j name',
      SegCalcVertex.link_name j = SegCalcVertex.Return name' ->
      (name' = "amount"%string <-> j = 1).
Proof.
  exact (link_index_of_name "amount" 1 eq_refl).
Defined.
